(** * editorjs-table-automotive: the numeric core of [plugin.js]

    A shallow embedding of the automotive utilities of the table plugin
    (gradient colouring, the three smoothing algorithms and the blank
    filler) and the properties its specification states about them.

    Conventions of the embedding.
    - A cell is a JavaScript string, modelled as [string] over 8-bit code
      units; a missing cell ([undefined], read past the end of a row) is
      [None].
    - A grid is [list (list string)]; the in-place writes [result[i][j] = t]
      are list inserts, and section [Memory] models the row arrays as heap
      objects so that aliasing between [content] and [result] is explicit.
    - JavaScript numbers are an interface, [JSNumber]: the operations of the
      source ([+], [-], [*], [/], comparisons, [parseFloat], [Math.round],
      [toFixed] ...) are its fields, so that everything proved generically
      holds for IEEE doubles as for any other implementation.  Module
      [Ideal] implements it with exact rationals extended by NaN and the two
      infinities; it is used to run the code on concrete tables.
    - A call either returns, throws, or never returns: type [outcome]. *)

From Stdlib Require Import ZArith Zquot QArith Qround Qabs String Ascii List Lia Lqa Bool.
From stdpp Require Import base option list gmap.

Local Open Scope string_scope.
Local Open Scope Z_scope.

(** ** Outcomes of a call *)

Inductive jsError : Type :=
  | RangeError
  | TypeError.

Inductive outcome (A : Type) : Type :=
  | Returns (a : A)
  | Throws (e : jsError)
  | Diverges.

Arguments Returns {A} a.
Arguments Throws {A} e.
Arguments Diverges {A}.

#[global] Instance outcome_ret : MRet outcome := fun A a => Returns a.

#[global] Instance outcome_bind : MBind outcome := fun A B k m =>
  match m with
  | Returns a => k a
  | Throws e => Throws e
  | Diverges => Diverges
  end.

(** ** String primitives of the host language *)

Module JSString.

(** White space removed by [String.prototype.trim], restricted to code
    units below 256: TAB, LF, VT, FF, CR, SPACE and NBSP. *)
Definition is_white_space (c : ascii) : bool :=
  match N_of_ascii c with
  | 9%N | 10%N | 11%N | 12%N | 13%N | 32%N | 160%N => true
  | _ => false
  end.

Fixpoint trimStart (s : string) : string :=
  match s with
  | EmptyString => EmptyString
  | String c r => if is_white_space c then trimStart r else s
  end.

Fixpoint trimEnd (s : string) : string :=
  match s with
  | EmptyString => EmptyString
  | String c r =>
      match trimEnd r with
      | EmptyString => if is_white_space c then EmptyString else String c EmptyString
      | r' => String c r'
      end
  end.

Definition trim (s : string) : string := trimEnd (trimStart s).

(** [s.includes(c)] for a one-character needle. *)
Fixpoint includes (c : ascii) (s : string) : bool :=
  match s with
  | EmptyString => false
  | String a r => if Ascii.eqb a c then true else includes c r
  end.

(** [s.split(c)] for a one-character separator: never empty. *)
Fixpoint split (c : ascii) (s : string) : list string :=
  match s with
  | EmptyString => [EmptyString]
  | String a r =>
      if Ascii.eqb a c then EmptyString :: split c r
      else match split c r with
           | p :: ps => String a p :: ps
           | [] => [String a EmptyString]
           end
  end.

(** [s.replace(/<[^>]*>/g, '')].  At a ['<'] the pattern matches up to
    the first ['>'] that follows, if there is one; a ['<'] with no ['>']
    after it is ordinary text.  [inTag] says that the scan is inside a
    match. *)
Fixpoint strip_from (inTag : bool) (s : string) : string :=
  match s with
  | EmptyString => EmptyString
  | String a r =>
      if inTag then
        if Ascii.eqb a ">" then strip_from false r else strip_from true r
      else if Ascii.eqb a "<" && includes ">" r then strip_from true r
      else String a (strip_from false r)
  end.

Definition stripTags (s : string) : string := strip_from false s.

(** The number of occurrences of [c]. *)
Fixpoint count_char (c : ascii) (s : string) : nat :=
  match s with
  | EmptyString => 0%nat
  | String a r => ((if Ascii.eqb a c then 1 else 0) + count_char c r)%nat
  end.

(** The text after the first occurrence of [c], if there is one. *)
Fixpoint after_first (c : ascii) (s : string) : option string :=
  match s with
  | EmptyString => None
  | String a r => if Ascii.eqb a c then Some r else after_first c r
  end.

(** [s.split(c)[k] || ''] *)
Definition segment (c : ascii) (k : nat) (s : string) : string :=
  default EmptyString (split c s !! k).

(** A decimal digit, [\d]. *)
Definition is_digit (c : ascii) : bool :=
  (48 <=? N_of_ascii c)%N && (N_of_ascii c <=? 57)%N.

Definition starts_with_digit (s : string) : bool :=
  match s with
  | String a _ => is_digit a
  | EmptyString => false
  end.

(** [s.match(/\d+/g)]: the maximal runs of decimal digits, left to right
    (the empty list stands for [null]). *)
Fixpoint digit_runs (s : string) : list string :=
  match s with
  | EmptyString => []
  | String a r =>
      if is_digit a then
        if starts_with_digit r then
          match digit_runs r with
          | t :: ts => String a t :: ts
          | [] => [String a EmptyString]
          end
        else String a EmptyString :: digit_runs r
      else digit_runs r
  end.

(** The value of a run of decimal digits. *)
Fixpoint digits_value (acc : Z) (s : string) : Z :=
  match s with
  | EmptyString => acc
  | String a r => digits_value (10 * acc + (Z.of_N (N_of_ascii a) - 48)) r
  end.

(** Decimal digits of a natural number, most significant first. *)
Fixpoint digits_of_fuel (fuel : nat) (n : Z) (acc : string) : string :=
  match fuel with
  | O => acc
  | S f =>
      let acc' := String (ascii_of_N (Z.to_N (48 + n mod 10))) acc in
      if n <? 10 then acc' else digits_of_fuel f (n / 10) acc'
  end.

Definition digits_of (n : Z) : string :=
  digits_of_fuel (S (Z.to_nat (Z.log2 n))) n EmptyString.

Fixpoint repeat_char (c : ascii) (n : nat) : string :=
  match n with
  | O => EmptyString
  | S k => String c (repeat_char c k)
  end.

End JSString.

(** ** Numbers *)

(** The result of [Math.round], [Math.ceil] or [Math.floor]: an integer, an
    infinity or NaN. *)
Inductive integral : Type :=
  | Int (z : Z)
  | PlusInfinity
  | MinusInfinity
  | NotANumber.

(** What the source uses of the host's numbers. *)
Class JSNumber : Type := {
  num : Type;
  (** a numeric literal, or an exact count or length *)
  of_Q : Q -> num;
  add : num -> num -> num;
  sub : num -> num -> num;
  mul : num -> num -> num;
  div : num -> num -> num;
  (** [a < b], [a <= b], [a === b] *)
  ltb : num -> num -> bool;
  leb : num -> num -> bool;
  eqb : num -> num -> bool;
  isNaN : num -> bool;
  (** the value of an arithmetic operand that is [undefined] *)
  nan : num;
  Math_min : num -> num -> num;
  Math_max : num -> num -> num;
  Math_round : num -> integral;
  Math_ceil : num -> integral;
  Math_exp : num -> num;
  (** [parseFloat(s)] *)
  parseFloat : string -> num;
  (** [x.toFixed(d)] for [0 <= d <= 100] *)
  toFixed_digits : num -> nat -> string;
  (** no number is below itself (NaN included) *)
  ltb_irrefl : forall x, ltb x x = false;
}.

(** A grid of cell texts: [string[][]]. *)
Abbreviation grid := (list (list string)).

(** Row arrays by location (section [Memory] below). *)
Abbreviation heap := (gmap nat (list string)).

Section Core.

Context {N : JSNumber}.

Definition of_Z (z : Z) : num := of_Q (inject_Z z).
Definition of_nat (n : nat) : num := of_Z (Z.of_nat n).

(** [x.toFixed(d)]: a RangeError outside [0..100], whatever [x] is. *)
Definition toFixed (x : num) (d : nat) : outcome string :=
  if (100 <? d)%nat then Throws RangeError else Returns (toFixed_digits x d).

(** [parseNumericValue(content)]; [None] is [null].  The argument is
    [None] when the caller read past the end of a row. *)
Definition parseNumericValue (content : option string) : option num :=
  match content with
  | None => None
  | Some EmptyString => None
  | Some s =>
      let text := JSString.trim (JSString.stripTags s) in
      let n := parseFloat text in
      if isNaN n then None else Some n
  end.


(** *** Gradient colouring *)

(** A colour stop [{ value, color: [r, g, b] }]. *)
Record colorStop : Type := ColorStop {
  stop_value : num;
  stop_color : Z * Z * Z;
}.

Record colorScheme : Type := ColorScheme {
  scheme_name : string;
  colors : list colorStop;
}.

Definition literal (n d : Z) : num := of_Q (Qmake n (Z.to_pos d)).

Definition THERMAL : colorScheme :=
  ColorScheme "Thermal"
    [ ColorStop (of_Z 0) (0, 0, 255);
      ColorStop (literal 25 100) (0, 255, 255);
      ColorStop (literal 5 10) (0, 255, 0);
      ColorStop (literal 75 100) (255, 255, 0);
      ColorStop (of_Z 1) (255, 0, 0) ].

Definition GRAYSCALE : colorScheme :=
  ColorScheme "Grayscale"
    [ ColorStop (of_Z 0) (255, 255, 255);
      ColorStop (of_Z 1) (0, 0, 0) ].

Definition VIRIDIS : colorScheme :=
  ColorScheme "Viridis"
    [ ColorStop (of_Z 0) (68, 1, 84);
      ColorStop (literal 25 100) (59, 82, 139);
      ColorStop (literal 5 10) (33, 145, 140);
      ColorStop (literal 75 100) (94, 201, 98);
      ColorStop (of_Z 1) (253, 231, 37) ].

Definition AUTOMOTIVE : colorScheme :=
  ColorScheme "Automotive"
    [ ColorStop (of_Z 0) (30, 30, 180);
      ColorStop (literal 2 10) (60, 120, 220);
      ColorStop (literal 4 10) (100, 200, 100);
      ColorStop (literal 6 10) (255, 200, 60);
      ColorStop (literal 8 10) (255, 120, 30);
      ColorStop (of_Z 1) (220, 20, 20) ].

Definition COLOR_SCHEMES : list colorScheme :=
  [THERMAL; GRAYSCALE; VIRIDIS; AUTOMOTIVE].

(** One channel of [interpolateColor]:
    [Math.round(c1 + (c2 - c1) * factor)]. *)
Definition interpolateChannel (c1 c2 : Z) (factor : num) : integral :=
  Math_round (add (of_Z c1) (mul (sub (of_Z c2) (of_Z c1)) factor)).

Definition interpolateColor (color1 color2 : Z * Z * Z) (factor : num)
  : integral * integral * integral :=
  let '(r1, g1, b1) := color1 in
  let '(r2, g2, b2) := color2 in
  (interpolateChannel r1 r2 factor,
   interpolateChannel g1 g2 factor,
   interpolateChannel b1 b2 factor).

(** The [for] loop of [getColorForValue]: the first pair of adjacent
    stops that brackets the value, [None] when the loop ends without a
    [break]. *)
Fixpoint find_stops (v : num) (cs : list colorStop) : option (colorStop * colorStop) :=
  match cs with
  | lo :: rest =>
      match rest with
      | hi :: _ =>
          if leb (stop_value lo) v && leb v (stop_value hi) then Some (lo, hi)
          else find_stops v rest
      | [] => None
      end
  | [] => None
  end.

(** Number to string for an integral value, as a template literal
    prints it. *)
Definition exponent_form (n : Z) : string :=
  let ds := JSString.digits_of n in
  let e := JSString.digits_of (Z.of_nat (String.length ds) - 1) in
  let fix strip0 (s : string) : string :=
    match s with
    | EmptyString => EmptyString
    | String a r =>
        match strip0 r with
        | EmptyString => if Ascii.eqb a "0" then EmptyString else String a EmptyString
        | r' => String a r'
        end
    end in
  match ds with
  | EmptyString => "0"
  | String d r =>
      match strip0 r with
      | EmptyString => String d ("e+" ++ e)
      | frac => String d ("." ++ frac ++ "e+" ++ e)
      end
  end.

Definition natural_to_string (n : Z) : string :=
  if n <? 10 ^ 21 then JSString.digits_of n else exponent_form n.

Definition integral_to_string (x : integral) : string :=
  match x with
  | Int z => if z <? 0 then "-" ++ natural_to_string (- z) else natural_to_string z
  | PlusInfinity => "Infinity"
  | MinusInfinity => "-Infinity"
  | NotANumber => "NaN"
  end.

Definition rgb_string (rgb : integral * integral * integral) : string :=
  let '(r, g, b) := rgb in
  "rgb(" ++ integral_to_string r ++ ", " ++ integral_to_string g ++ ", "
         ++ integral_to_string b ++ ")".

(** The channels [getColorForValue] interpolates before it prints them;
    reading [.value] of a missing stop is a TypeError. *)
Definition getColorForValue_rgb (normalizedValue : num) (colorScheme : colorScheme)
  : outcome (integral * integral * integral) :=
  let cs := colors colorScheme in
  let normalizedValue := Math_max (of_Z 0) (Math_min (of_Z 1) normalizedValue) in
  let stops :=
    match find_stops normalizedValue cs with
    | Some (lo, hi) => Some (lo, hi)
    | None =>
        match cs !! 0%nat, cs !! (length cs - 1)%nat with
        | Some lo, Some hi => Some (lo, hi)
        | _, _ => None
        end
    end in
  match stops with
  | None => Throws TypeError
  | Some (lowerStop, upperStop) =>
      let range := sub (stop_value upperStop) (stop_value lowerStop) in
      let factor :=
        if eqb range (of_Z 0) then of_Z 0
        else div (sub normalizedValue (stop_value lowerStop)) range in
      Returns (interpolateColor (stop_color lowerStop) (stop_color upperStop) factor)
  end.

Definition getColorForValue (normalizedValue : num) (colorScheme : colorScheme)
  : outcome string :=
  rgb ← getColorForValue_rgb normalizedValue colorScheme;
  Returns (rgb_string rgb).

Record cellColors : Type := CellColors {
  backgroundColor : string;
  textColor : string;
}.

(** [rgb[k]] after [backgroundColor.match(/\d+/g).map(Number)]. *)
Definition channel_of (runs : list string) (k : nat) : num :=
  match runs !! k with
  | Some run => of_Z (JSString.digits_value 0 run)
  | None => nan
  end.

Definition getCellColors (value min max : num) (colorScheme : colorScheme)
  : outcome cellColors :=
  let range := sub max min in
  let normalizedValue :=
    if eqb range (of_Z 0) then literal 5 10 else div (sub value min) range in
  backgroundColor ← getColorForValue normalizedValue colorScheme;
  match JSString.digit_runs backgroundColor with
  | [] => Throws TypeError
  | runs =>
      let brightness :=
        div (add (add (mul (channel_of runs 0) (of_Z 299))
                      (mul (channel_of runs 1) (of_Z 587)))
                 (mul (channel_of runs 2) (of_Z 114)))
            (of_Z 1000) in
      let textColor := if ltb (of_Z 128) brightness then "#000000" else "#ffffff" in
      Returns (CellColors backgroundColor textColor)
  end.



(** *** Grids *)


(** [content[i][j]] for a row [i] that exists; [None] is [undefined]. *)
Definition cell_at (content : grid) (i j : nat) : option string :=
  row ← content !! i; row !! j.

(** [content[i].length] *)
Definition row_length (content : grid) (i : nat) : nat :=
  match content !! i with
  | Some row => length row
  | None => 0%nat
  end.

(** [skipFirstRow ? 1 : 0] *)
Definition start_of (skip : bool) : nat := if skip then 1%nat else 0%nat.

(** The integers [lo, lo + 1, ..., hi] of a [for] loop. *)
Definition zrange (lo hi : Z) : list Z := seqZ lo (hi - lo + 1).

(** The bounds test shared by the window loops:
    [ni >= startRow && ni < content.length && nj >= startCol &&
     nj < content[i].length]. *)
Definition in_window_bounds (content : grid) (startRow startCol i : nat) (ni nj : Z) : bool :=
  (Z.of_nat startRow <=? ni) && (ni <? Z.of_nat (length content))
  && (Z.of_nat startCol <=? nj) && (nj <? Z.of_nat (row_length content i)).

(** [result[i][j] = text] *)
Definition set_cell (result : grid) (i j : nat) (text : string) : grid :=
  alter (fun row => <[j := text]> row) i result.

(** A [for] loop over a list of indices, threading the loop state and
    stopping at the first exception. *)
Fixpoint for_each {I S : Type} (idx : list I) (body : I -> S -> outcome S) (s : S)
  : outcome S :=
  match idx with
  | [] => Returns s
  | i :: rest => s' ← body i s; for_each rest body s'
  end.

(** What the body of the two cell loops does at [(i, j)]: [None] is a
    [continue] or a guard that leaves the cell alone, [Some text] is
    [result[i][j] = text]. *)
Definition cell_rule : Type := grid -> nat -> nat -> outcome (option string).

Definition write_cell (rule : cell_rule) (content : grid) (i j : nat) (result : grid)
  : outcome grid :=
  t ← rule content i j;
  Returns (match t with
           | Some text => set_cell result i j text
           | None => result
           end).

(** The loop skeleton the four operations share:
    [const result = content.map((row) => [...row]);
     for (let i = startRow; i < content.length; i++)
       for (let j = startCol; j < content[i].length; j++) body
     return result]. *)
Definition grid_loop (rule : cell_rule) (content : grid) (startRow startCol : nat)
  : outcome grid :=
  for_each (seq startRow (length content - startRow))
    (fun i => for_each (seq startCol (row_length content i - startCol))
                (fun j => write_cell rule content i j))
    content.

(** The text a rule writes at [(i, j)], if it writes one. *)
Definition written (rule : cell_rule) (content : grid) (i j : nat) : option string :=
  match rule content i j with
  | Returns (Some t) => Some t
  | _ => None
  end.

(** The loop body at a cell given as a pair. *)
Definition pure_body (rule : cell_rule) (content : grid) (ij : nat * nat)
  : grid -> outcome grid :=
  write_cell rule content ij.1 ij.2.

(** The cells the two loops visit: [startRow <= i < content.length] and
    [startCol <= j < content[i].length]. *)
Definition in_mask (content : grid) (startRow startCol i j : nat) : Prop :=
  (startRow <= i /\ startCol <= j < row_length content i)%nat.

#[global] Instance in_mask_dec content sr sc i j : Decision (in_mask content sr sc i j).
Proof. unfold in_mask. apply _. Defined.

(** The decimals count of the three smoothers:
    [content[i][j].includes('.')
       ? (content[i][j].split('.')[1] || '').replace(/<[^>]*>/g, '').length : 0]. *)
Definition smoothing_decimals (cell : string) : nat :=
  if JSString.includes "." cell then
    String.length
      (JSString.stripTags (default EmptyString (JSString.split "." cell !! 1%nat)))
  else 0%nat.

(** The decimal places of the parser contract, in the words of the
    specification: the length of what follows the first ['.'] of the
    text without its markup, 0 when it has no ['.']. *)
Definition decimalPlaces_claimed (raw : string) : nat :=
  match JSString.after_first "." (JSString.stripTags raw) with
  | Some rest => String.length rest
  | None => 0%nat
  end.

(** The length of the text between the first ['.'] and the next one (or
    the end) of the text without its markup. *)
Definition decimalPlaces_between (raw : string) : nat :=
  let text := JSString.stripTags raw in
  if JSString.includes "." text then String.length (JSString.segment "." 1 text)
  else 0%nat.

(** No ['.'] of the text is inside a tag: stripping the markup removes
    none. *)
Definition dots_outside_markup (raw : string) : Prop :=
  JSString.count_char "." (JSString.stripTags raw) = JSString.count_char "." raw.

(** [result[i][j] = smoothedValue.toFixed(Math.max(decimals, 2))] *)
Definition write_smoothed (content : grid) (i j : nat) (smoothedValue : num)
  : outcome (option string) :=
  let decimals := smoothing_decimals (default EmptyString (cell_at content i j)) in
  text ← toFixed smoothedValue (Nat.max decimals 2);
  Returns (Some text).

(** *** Moving average *)

(** The two window loops of [applyMovingAverage], returning [(sum, count)]. *)
Definition window_sum (content : grid) (startRow startCol : nat) (halfWindow : Z)
    (i j : nat) : num * nat :=
  foldl (fun acc di =>
    foldl (fun '(sum, count) dj =>
      let ni := Z.of_nat i + di in
      let nj := Z.of_nat j + dj in
      if in_window_bounds content startRow startCol i ni nj then
        match parseNumericValue (cell_at content (Z.to_nat ni) (Z.to_nat nj)) with
        | Some neighborValue => (add sum neighborValue, S count)
        | None => (sum, count)
        end
      else (sum, count))
      acc (zrange (- halfWindow) halfWindow))
    (of_Z 0, 0%nat) (zrange (- halfWindow) halfWindow).

(** The window in the words of the specification: the numeric cells
    inside the mask within Chebyshev distance [halfWindow] of [(i, j)], in
    reading order. *)
Definition window_values_claimed (content : grid) (startRow startCol : nat)
    (halfWindow : Z) (i j : nat) : list num :=
  ni ← seq startRow (length content - startRow);
  nj ← seq startCol (row_length content ni - startCol);
  if decide (Z.abs (Z.of_nat ni - Z.of_nat i) <= halfWindow
             /\ Z.abs (Z.of_nat nj - Z.of_nat j) <= halfWindow)
  then option_list (parseNumericValue (cell_at content ni nj))
  else [].

(** The same with the columns cut at the length of the cell's own row,
    [content[i].length]. *)
Definition window_values (content : grid) (startRow startCol : nat)
    (halfWindow : Z) (i j : nat) : list num :=
  ni ← seq startRow (length content - startRow);
  nj ← seq startCol (row_length content i - startCol);
  if decide (Z.abs (Z.of_nat ni - Z.of_nat i) <= halfWindow
             /\ Z.abs (Z.of_nat nj - Z.of_nat j) <= halfWindow)
  then option_list (parseNumericValue (cell_at content ni nj))
  else [].

(** The arithmetic mean, summed from the left. *)
Definition mean (values : list num) : num :=
  div (foldl add (of_Z 0) values) (of_nat (length values)).

Definition movingAverage_cell (halfWindow : Z) (startRow startCol : nat) : cell_rule :=
  fun content i j =>
    match parseNumericValue (cell_at content i j) with
    | None => Returns None
    | Some value =>
        let '(sum, count) := window_sum content startRow startCol halfWindow i j in
        if (0 <? count)%nat then write_smoothed content i j (div sum (of_nat count))
        else Returns None
    end.

(** The values the two window loops collect, in the order of the loops. *)
Definition collected (content : grid) (sr sc : nat) (h : Z) (i j : nat) : list num :=
  di ← zrange (- h) h;
  dj ← zrange (- h) h;
  if in_window_bounds content sr sc i (Z.of_nat i + di) (Z.of_nat j + dj)
  then option_list (parseNumericValue
                      (cell_at content (Z.to_nat (Z.of_nat i + di)) (Z.to_nat (Z.of_nat j + dj))))
  else [].

(** [if (windowSize % 2 === 0) windowSize += 1] *)
Definition odd_window (windowSize : Z) : Z :=
  if Z.rem windowSize 2 =? 0 then windowSize + 1 else windowSize.

Definition applyMovingAverage (content : grid) (windowSize : Z)
    (skipFirstRow skipFirstColumn : bool) : outcome grid :=
  let windowSize := odd_window windowSize in
  let halfWindow := windowSize / 2 in
  let startRow := start_of skipFirstRow in
  let startCol := start_of skipFirstColumn in
  grid_loop (movingAverage_cell halfWindow startRow startCol) content startRow startCol.

(** The sentence of the specification on the moving average, as a
    statement about a call: every numeric cell of the mask is rewritten
    with the mean of the claimed window. *)
Definition moving_average_claim (content : grid) (w : Z) (r c : bool) : Prop :=
  forall out, applyMovingAverage content w r c = Returns out ->
  forall i j raw v,
    in_mask content (start_of r) (start_of c) i j ->
    cell_at content i j = Some raw ->
    parseNumericValue (Some raw) = Some v ->
    cell_at out i j
    = Some (toFixed_digits
              (mean (window_values_claimed content (start_of r) (start_of c)
                       (odd_window w / 2) i j))
              (Nat.max (smoothing_decimals raw) 2)).

(** The sentence of the specification on the output format, as a
    statement about a call of the moving average: a rewritten cell shows
    the smoothed value with [max(d, 2)] decimals, [d] as the parser
    contract defines it. *)
Definition smoothing_format_claim (content : grid) (w : Z) (r c : bool) : Prop :=
  forall out, applyMovingAverage content w r c = Returns out ->
  forall i j raw v,
    in_mask content (start_of r) (start_of c) i j ->
    cell_at content i j = Some raw ->
    parseNumericValue (Some raw) = Some v ->
    window_values content (start_of r) (start_of c) (odd_window w / 2) i j <> [] ->
    cell_at out i j
    = Some (toFixed_digits
              (mean (window_values content (start_of r) (start_of c)
                       (odd_window w / 2) i j))
              (Nat.max (decimalPlaces_claimed raw) 2)).


(** *** Gaussian smoothing *)

(** [Math.ceil(sigma * 3) * 2 + 1] and [Math.floor(kernelSize / 2)], on
    exact integers. *)
Definition kernelSize_of (sigma : num) : integral :=
  match Math_ceil (mul sigma (of_Z 3)) with
  | Int k => Int (k * 2 + 1)
  | other => other
  end.

Definition halfSize_of (kernelSize : integral) : integral :=
  match kernelSize with
  | Int k => Int (k / 2)
  | other => other
  end.

(** The kernel before normalisation, row by row:
    [Math.exp(-(i * i + j * j) / (2 * sigma * sigma))]. *)
Definition raw_kernel (sigma : num) (halfSize : Z) : list (list num) :=
  map (fun i =>
    map (fun j =>
      Math_exp (div (of_Z (- (i * i + j * j))) (mul (mul (of_Z 2) sigma) sigma)))
      (zrange (- halfSize) halfSize))
    (zrange (- halfSize) halfSize).

(** [kernelSum], accumulated in the order the entries are generated. *)
Definition kernel_sum (k : list (list num)) : num :=
  foldl (fun s row => foldl add s row) (of_Z 0) k.

Definition normalized_kernel (sigma : num) (halfSize : Z) : list (list num) :=
  let k := raw_kernel sigma halfSize in
  let kernelSum := kernel_sum k in
  map (map (fun v => div v kernelSum)) k.

(** The kernel and [halfSize] the cell loops run with.  When [halfSize]
    is [+Infinity] the generating loop starts at [-Infinity], which [i++]
    and [j++] leave where it is: the call does not return.  When it is
    NaN or [-Infinity] the loop does not run at all and the kernel is
    empty. *)
Definition gaussian_kernel (sigma : num) : outcome (list (list num) * Z) :=
  match halfSize_of (kernelSize_of sigma) with
  | Int h => Returns (normalized_kernel sigma h, h)
  | PlusInfinity => Diverges
  | MinusInfinity | NotANumber => Returns ([], 0)
  end.

Definition kernel_at (kernel : list (list num)) (ki kj : nat) : num :=
  default nan (row ← kernel !! ki; row !! kj).

(** The two kernel loops, returning [(sum, weightSum)]. *)
Definition kernel_sums (kernel : list (list num)) (halfSize : Z) (content : grid)
    (startRow startCol : nat) (i j : nat) : num * num :=
  foldl (fun acc ki =>
    foldl (fun '(sum, weightSum) kj =>
      let ni := Z.of_nat i + Z.of_nat ki - halfSize in
      let nj := Z.of_nat j + Z.of_nat kj - halfSize in
      if in_window_bounds content startRow startCol i ni nj then
        match parseNumericValue (cell_at content (Z.to_nat ni) (Z.to_nat nj)) with
        | Some neighborValue =>
            (add sum (mul neighborValue (kernel_at kernel ki kj)),
             add weightSum (kernel_at kernel ki kj))
        | None => (sum, weightSum)
        end
      else (sum, weightSum))
      acc (seq 0 (length (default [] (kernel !! ki)))))
    (of_Z 0, of_Z 0) (seq 0 (length kernel)).

Definition gaussian_cell (kernel : list (list num)) (halfSize : Z)
    (startRow startCol : nat) : cell_rule :=
  fun content i j =>
    match parseNumericValue (cell_at content i j) with
    | None => Returns None
    | Some value =>
        let '(sum, weightSum) := kernel_sums kernel halfSize content startRow startCol i j in
        if ltb (of_Z 0) weightSum then write_smoothed content i j (div sum weightSum)
        else Returns None
    end.

Definition applyGaussianSmoothing (content : grid) (sigma : num)
    (skipFirstRow skipFirstColumn : bool) : outcome grid :=
  '(kernel, halfSize) ← gaussian_kernel sigma;
  let startRow := start_of skipFirstRow in
  let startCol := start_of skipFirstColumn in
  grid_loop (gaussian_cell kernel halfSize startRow startCol) content startRow startCol.

(** *** Bilinear interpolation *)

(** [const v = parseNumericValue(cell); if (v !== null) neighbors.push(v)] *)
Definition push_numeric (neighbors : list num) (cell : option string) : list num :=
  match parseNumericValue cell with
  | Some v => neighbors ++ [v]
  | None => neighbors
  end.

(** The 4-connected neighbours, in the order up, down, left, right. *)
Definition bilinear_neighbors (content : grid) (startRow startCol : nat) (i j : nat)
  : list num :=
  let neighbors := [] in
  let neighbors :=
    if (startRow <? i)%nat then push_numeric neighbors (cell_at content (i - 1) j)
    else neighbors in
  let neighbors :=
    if (Z.of_nat i <? Z.of_nat (length content) - 1)
    then push_numeric neighbors (cell_at content (i + 1) j)
    else neighbors in
  let neighbors :=
    if (startCol <? j)%nat then push_numeric neighbors (cell_at content i (j - 1))
    else neighbors in
  let neighbors :=
    if (Z.of_nat j <? Z.of_nat (row_length content i) - 1)
    then push_numeric neighbors (cell_at content i (j + 1))
    else neighbors in
  neighbors.

Definition bilinear_cell (startRow startCol : nat) : cell_rule :=
  fun content i j =>
    match parseNumericValue (cell_at content i j) with
    | None => Returns None
    | Some value =>
        let neighbors := bilinear_neighbors content startRow startCol i j in
        if (0 <? length neighbors)%nat then
          write_smoothed content i j
            (div (add value (foldl add (of_Z 0) neighbors))
                 (of_nat (length neighbors + 1)))
        else Returns None
    end.

Definition applyBilinearInterpolation (content : grid)
    (skipFirstRow skipFirstColumn : bool) : outcome grid :=
  let startRow := start_of skipFirstRow in
  let startCol := start_of skipFirstColumn in
  grid_loop (bilinear_cell startRow startCol) content startRow startCol.


(** *** Blank filler *)

(** [isEmpty(cell)]: a missing or empty cell, or one that is blank after
    the tags are stripped and the text trimmed. *)
Definition isEmpty (cell : option string) : bool :=
  match cell with
  | None => true
  | Some EmptyString => true
  | Some s =>
      let cleaned := JSString.trim (JSString.stripTags s) in
      String.eqb cleaned "" || String.eqb cleaned "&nbsp;"
  end.

(** [getDecimalPlaces(cell)] *)
Definition getDecimalPlaces (cell : string) : nat :=
  let cleaned := JSString.trim (JSString.stripTags cell) in
  if negb (JSString.includes "." cleaned) then 0%nat
  else
    match JSString.split "." cleaned !! 1%nat with
    | Some part => String.length part
    | None => 0%nat
    end.

(** The object [findNearest] returns. *)
Record nearest : Type := Nearest {
  nearest_value : num;
  nearest_distance : Z;
  nearest_decimals : nat;
}.

(** The scan position is inside the mask:
    [r >= startRow && r < content.length && c >= startCol &&
     c < content[0].length]. *)
Definition in_scan_bounds (content : grid) (startRow startCol : nat) (r c : Z) : bool :=
  (Z.of_nat startRow <=? r) && (r <? Z.of_nat (length content))
  && (Z.of_nat startCol <=? c) && (c <? Z.of_nat (row_length content 0)).

(** The [while] loop of [findNearest], from position [(r, c)].  The outer
    [None] is a loop that has not ended within [fuel] iterations. *)
Fixpoint findNearest_loop (fuel : nat) (content : grid) (startRow startCol : nat)
    (row col dRow dCol r c : Z) : option (option nearest) :=
  match fuel with
  | O => None
  | S fuel' =>
      if in_scan_bounds content startRow startCol r c then
        let cell := cell_at content (Z.to_nat r) (Z.to_nat c) in
        let next :=
          findNearest_loop fuel' content startRow startCol row col dRow dCol
            (r + dRow) (c + dCol) in
        if negb (isEmpty cell) then
          match parseNumericValue cell with
          | Some val =>
              Some (Some (Nearest val (Z.abs (r - row) + Z.abs (c - col))
                                  (getDecimalPlaces (default EmptyString cell))))
          | None => next
          end
        else next
      else Some None
  end.

(** [findNearest(row, col, dRow, dCol)].  A scan that moves leaves the
    mask within [content.length + content[0].length] steps, so a loop
    still running after that many iterations never ends. *)
Definition findNearest (content : grid) (startRow startCol : nat)
    (row col dRow dCol : Z) : outcome (option nearest) :=
  match findNearest_loop (S (length content + row_length content 0)) content
          startRow startCol row col dRow dCol (row + dRow) (col + dCol) with
  | Some found => Returns found
  | None => Diverges
  end.

(** [if (x) { values.push(x.value); weights.push(1 / x.distance);
             decimalCounts.push(x.decimals) }] for the four results. *)
Definition found_of (results : list (option nearest)) : list nearest :=
  omap id results.

Definition weight_of (x : nearest) : num := div (of_Z 1) (of_Z (nearest_distance x)).

(** [values.reduce((sum, val, idx) => sum + val * weights[idx], 0) /
     weights.reduce((a, b) => a + b, 0)] *)
Definition interpolated_value (found : list nearest) : num :=
  let totalWeight := foldl (fun a x => add a (weight_of x)) (of_Z 0) found in
  div (foldl (fun sum x => add sum (mul (nearest_value x) (weight_of x))) (of_Z 0) found)
      totalWeight.

(** [Math.max(...decimalCounts, 1)] *)
Definition fill_decimals (found : list nearest) : nat :=
  foldr Nat.max 1%nat (nearest_decimals <$> found).

Definition autoFill_cell (startRow startCol : nat) : cell_rule :=
  fun content i j =>
    if negb (isEmpty (cell_at content i j)) then Returns None
    else
      let find := findNearest content startRow startCol (Z.of_nat i) (Z.of_nat j) in
      top ← find (-1) 0;
      bottom ← find 1 0;
      left ← find 0 (-1);
      right ← find 0 1;
      let found := found_of [top; bottom; left; right] in
      if (0 <? length found)%nat then
        text ← toFixed (interpolated_value found) (fill_decimals found);
        Returns (Some text)
      else Returns None.

Definition autoFillBlanks (content : grid) (skipFirstRow skipFirstColumn : bool)
  : outcome grid :=
  let startRow := start_of skipFirstRow in
  let startCol := start_of skipFirstColumn in
  grid_loop (autoFill_cell startRow startCol) content startRow startCol.

(** The four calls of [findNearest]: up, down, left, right. *)
Definition directions : list (Z * Z) := [(-1, 0); (1, 0); (0, -1); (0, 1)].

(** The test of the scan at a position: the number of a cell that is not
    blank and parses, [None] otherwise. *)
Definition scan_value (content : grid) (r c : Z) : option num :=
  let cell := cell_at content (Z.to_nat r) (Z.to_nat c) in
  if negb (isEmpty cell) then parseNumericValue cell else None.

(** The scan of [findNearest] from [(row, col)] meets, [k] steps away,
    the first position that is outside the mask or holds a number;
    [found] says which. *)
Definition first_stop (content : grid) (startRow startCol : nat)
    (row col dRow dCol : Z) (k : Z) (found : option nearest) : Prop :=
  1 <= k
  /\ (forall k', 1 <= k' < k ->
        in_scan_bounds content startRow startCol (row + k' * dRow) (col + k' * dCol) = true
        /\ scan_value content (row + k' * dRow) (col + k' * dCol) = None)
  /\ match found with
     | Some x =>
         in_scan_bounds content startRow startCol (row + k * dRow) (col + k * dCol) = true
         /\ scan_value content (row + k * dRow) (col + k * dCol) = Some (nearest_value x)
         /\ nearest_distance x = k
         /\ nearest_decimals x
            = getDecimalPlaces
                (default EmptyString
                   (cell_at content (Z.to_nat (row + k * dRow)) (Z.to_nat (col + k * dCol))))
     | None =>
         in_scan_bounds content startRow startCol (row + k * dRow) (col + k * dCol) = false
     end.

(** The sentence of the specification on labels: when the first cell
    that is not blank does not parse as a number, the direction
    contributes nothing. *)
Definition label_blocks_claim (content : grid) (startRow startCol : nat)
    (row col dRow dCol : Z) : Prop :=
  forall k,
    1 <= k ->
    (forall k', 1 <= k' < k ->
       in_scan_bounds content startRow startCol (row + k' * dRow) (col + k' * dCol) = true
       /\ isEmpty (cell_at content (Z.to_nat (row + k' * dRow))
                     (Z.to_nat (col + k' * dCol))) = true) ->
    in_scan_bounds content startRow startCol (row + k * dRow) (col + k * dCol) = true ->
    isEmpty (cell_at content (Z.to_nat (row + k * dRow)) (Z.to_nat (col + k * dCol))) = false ->
    parseNumericValue (cell_at content (Z.to_nat (row + k * dRow))
                         (Z.to_nat (col + k * dCol))) = None ->
    findNearest content startRow startCol row col dRow dCol = Returns None.




(** The steps a scan can still take before it leaves the mask. *)
Definition steps_left (content : grid) (sr sc : nat) (dRow dCol r c : Z) : Z :=
  if in_scan_bounds content sr sc r c then
    (if dRow =? 1 then Z.of_nat (length content) - r else 0)
    + (if dRow =? -1 then r + 1 else 0)
    + (if dCol =? 1 then Z.of_nat (row_length content 0) - c else 0)
    + (if dCol =? -1 then c + 1 else 0)
  else 0.

(** *** The four operations as one family *)

Inductive operation : Type :=
  | MovingAverage (windowSize : Z)
  | GaussianSmoothing (sigma : num)
  | BilinearInterpolation
  | AutoFillBlanks.

Definition run (op : operation) (content : grid) (skipFirstRow skipFirstColumn : bool)
  : outcome grid :=
  match op with
  | MovingAverage windowSize =>
      applyMovingAverage content windowSize skipFirstRow skipFirstColumn
  | GaussianSmoothing sigma =>
      applyGaussianSmoothing content sigma skipFirstRow skipFirstColumn
  | BilinearInterpolation =>
      applyBilinearInterpolation content skipFirstRow skipFirstColumn
  | AutoFillBlanks => autoFillBlanks content skipFirstRow skipFirstColumn
  end.

(** ** Row arrays as heap objects

    [content] is an array of references to row arrays.  The operations
    never write the outer array, so it is a list of locations; the rows
    live in a heap, where a write through [result] would be seen through
    [content] if the two shared a row. *)

Section Memory.

(** The grid an array of row references denotes. *)
Definition deref (h : heap) (rows : list nat) : grid :=
  (fun l => default [] (h !! l)) <$> rows.

(** [content.map((row) => [...row])]: one new row object per row. *)
Fixpoint copy_rows (h : heap) (rows : list nat) : heap * list nat :=
  match rows with
  | [] => (h, [])
  | l :: rest =>
      let l' := fresh (dom h) in
      let '(h', ls) := copy_rows (<[l' := default [] (h !! l)]> h) rest in
      (h', l' :: ls)
  end.

(** [result[i][j] = text], with [j] inside the row. *)
Definition store_cell (result : list nat) (i j : nat) (text : string) (h : heap) : heap :=
  match result !! i with
  | Some l => alter (fun row => <[j := text]> row) l h
  | None => h
  end.

(** The loop body at [(i, j)]: it reads [content] in the heap as it is
    now, and writes through [result]. *)
Definition write_cell_mem (rule : cell_rule) (content result : list nat)
    (ij : nat * nat) (h : heap) : outcome heap :=
  t ← rule (deref h content) ij.1 ij.2;
  Returns (match t with
           | Some text => store_cell result ij.1 ij.2 text h
           | None => h
           end).

(** The cells visited, in the order of the two [for] loops. *)
Definition cells (content : grid) (startRow startCol : nat) : list (nat * nat) :=
  i ← seq startRow (length content - startRow);
  (fun j => (i, j)) <$> seq startCol (row_length content i - startCol).

(** The loop body run over the cells in a given order. *)
Definition visit (rule : cell_rule) (content result : list nat)
    (order : list (nat * nat)) (h : heap) : outcome heap :=
  for_each order (write_cell_mem rule content result) h.

(** The loop skeleton on the heap.  [content[i].length] is read from the
    heap as it is when the inner loop is entered: a write [result[i][j] =
    text] with [j] inside the row never changes a length, so the test of
    each iteration reads the same value. *)
Definition grid_loop_mem (rule : cell_rule) (content : list nat)
    (startRow startCol : nat) (h : heap) : outcome (heap * list nat) :=
  let '(h0, result) := copy_rows h content in
  h' ← for_each (seq startRow (length content - startRow))
         (fun i h1 =>
            for_each (seq startCol (row_length (deref h1 content) i - startCol))
              (fun j => write_cell_mem rule content result (i, j)) h1)
         h0;
  Returns (h', result).

(** The same with the cells visited in an arbitrary order. *)
Definition grid_loop_mem_in (order : list (nat * nat)) (rule : cell_rule)
    (content : list nat) (h : heap) : outcome (heap * list nat) :=
  let '(h0, result) := copy_rows h content in
  h' ← visit rule content result order h0;
  Returns (h', result).

(** The rule an operation applies at each cell, after whatever it
    computes before the loops. *)
Definition rule_of (op : operation) (skipFirstRow skipFirstColumn : bool)
  : outcome cell_rule :=
  let startRow := start_of skipFirstRow in
  let startCol := start_of skipFirstColumn in
  match op with
  | MovingAverage windowSize =>
      Returns (movingAverage_cell (odd_window windowSize / 2) startRow startCol)
  | GaussianSmoothing sigma =>
      '(kernel, halfSize) ← gaussian_kernel sigma;
      Returns (gaussian_cell kernel halfSize startRow startCol)
  | BilinearInterpolation => Returns (bilinear_cell startRow startCol)
  | AutoFillBlanks => Returns (autoFill_cell startRow startCol)
  end.

Definition run_mem (op : operation) (h : heap) (content : list nat)
    (skipFirstRow skipFirstColumn : bool) : outcome (heap * list nat) :=
  rule ← rule_of op skipFirstRow skipFirstColumn;
  grid_loop_mem rule content (start_of skipFirstRow) (start_of skipFirstColumn) h.

Definition run_mem_in (order : list (nat * nat)) (op : operation) (h : heap)
    (content : list nat) (skipFirstRow skipFirstColumn : bool)
  : outcome (heap * list nat) :=
  rule ← rule_of op skipFirstRow skipFirstColumn;
  grid_loop_mem_in order rule content h.

(** What holds of the heap while the loops run: outside the rows of
    [result] it is the heap [h] the call started with, and the rows of
    [result] are distinct objects that [h] did not have. *)
Record loop_invariant (h : heap) (content result : list nat) (hc : heap) : Prop := {
  inv_allocated : forall l, l ∈ content -> is_Some (h !! l);
  inv_frame : forall l, l ∉ result -> hc !! l = h !! l;
  inv_fresh : forall l, l ∈ result -> h !! l = None /\ is_Some (hc !! l);
  inv_distinct : NoDup result;
}.

End Memory.

End Core.

(** ** Exact arithmetic as an implementation of the numbers

    Rationals with NaN and the two infinities: the special values follow
    IEEE 754, finite results are exact (no rounding, no overflow, one
    zero).  On tables whose values and results are small dyadic numbers
    this is what a double computes. *)

Module Ideal.

Inductive real : Type :=
  | NaN
  | Infinity (negative : bool)
  | Finite (q : Q).

Definition finite (q : Q) : real := Finite (Qred q).

Definition is_neg (q : Q) : bool := (Qnum q <? 0)%Z.
Definition is_zero (q : Q) : bool := (Qnum q =? 0)%Z.

Definition neg (a : real) : real :=
  match a with
  | NaN => NaN
  | Infinity s => Infinity (negb s)
  | Finite q => finite (- q)%Q
  end.

Definition add (a b : real) : real :=
  match a, b with
  | NaN, _ | _, NaN => NaN
  | Infinity s, Infinity t => if Bool.eqb s t then Infinity s else NaN
  | Infinity s, Finite _ | Finite _, Infinity s => Infinity s
  | Finite x, Finite y => finite (x + y)%Q
  end.

Definition sub (a b : real) : real := add a (neg b).

Definition mul (a b : real) : real :=
  match a, b with
  | NaN, _ | _, NaN => NaN
  | Infinity s, Infinity t => Infinity (xorb s t)
  | Infinity s, Finite q | Finite q, Infinity s =>
      if is_zero q then NaN else Infinity (xorb s (is_neg q))
  | Finite x, Finite y => finite (x * y)%Q
  end.

Definition div (a b : real) : real :=
  match a, b with
  | NaN, _ | _, NaN => NaN
  | Infinity _, Infinity _ => NaN
  | Infinity s, Finite q => Infinity (xorb s (is_neg q))
  | Finite _, Infinity _ => finite 0%Q
  | Finite x, Finite y =>
      if is_zero y then (if is_zero x then NaN else Infinity (is_neg x))
      else finite (x / y)%Q
  end.

Definition ltb (a b : real) : bool :=
  match a, b with
  | NaN, _ | _, NaN => false
  | Infinity s, Infinity t => s && negb t
  | Infinity s, Finite _ => s
  | Finite _, Infinity t => negb t
  | Finite x, Finite y => negb (Qle_bool y x)
  end.

Definition eqb (a b : real) : bool :=
  match a, b with
  | NaN, _ | _, NaN => false
  | Infinity s, Infinity t => Bool.eqb s t
  | Finite x, Finite y => Qeq_bool x y
  | _, _ => false
  end.

Definition leb (a b : real) : bool := ltb a b || eqb a b.

Definition isNaN (a : real) : bool :=
  match a with
  | NaN => true
  | _ => false
  end.

Definition Math_min (a b : real) : real :=
  match a, b with
  | NaN, _ | _, NaN => NaN
  | _, _ => if ltb b a then b else a
  end.

Definition Math_max (a b : real) : real :=
  match a, b with
  | NaN, _ | _, NaN => NaN
  | _, _ => if ltb a b then b else a
  end.

Definition to_integral (f : Q -> Z) (a : real) : integral :=
  match a with
  | NaN => NotANumber
  | Infinity true => MinusInfinity
  | Infinity false => PlusInfinity
  | Finite q => Int (f q)
  end.

(** [Math.round] rounds half-way cases up. *)
Definition Math_round : real -> integral := to_integral (fun q => Qfloor (q + (1 # 2))%Q).
Definition Math_ceil : real -> integral := to_integral Qceiling.

(** [Math.exp] is implementation-approximated in the language standard:
    here the Taylor polynomial of degree 8 at [q / 2^k], [|q / 2^k| <= 1],
    raised to the power [2^k]; exact at NaN, the infinities and zero. *)
Definition taylor_exp (x : Q) : Q :=
  fold_right (fun k acc => 1 + x * acc / inject_Z (Z.of_nat k))%Q 1%Q
    (seq 1 8).

Definition exp_approx (q : Q) : Q :=
  let k := Z.to_nat (Z.log2_up (Qceiling (Qabs q) + 1)) in
  Nat.iter k (fun y => Qred (y * y)%Q) (Qred (taylor_exp (q / inject_Z (2 ^ Z.of_nat k))%Q)).

Definition Math_exp (a : real) : real :=
  match a with
  | NaN => NaN
  | Infinity true => finite 0%Q
  | Infinity false => Infinity false
  | Finite q => if is_zero q then finite 1%Q else finite (exp_approx q)
  end.

(** *** [parseFloat] *)

Fixpoint take_digits (s : string) : string * string :=
  match s with
  | String a r =>
      if JSString.is_digit a then
        let '(ds, rest) := take_digits r in (String a ds, rest)
      else (EmptyString, s)
  | EmptyString => (EmptyString, EmptyString)
  end.

(** An optional sign. *)
Definition take_sign (s : string) : bool * string :=
  match s with
  | String "-" r => (true, r)
  | String "+" r => (false, r)
  | _ => (false, s)
  end.

(** An exponent part [e[+-]digits], if one follows. *)
Definition take_exponent (s : string) : Z :=
  match s with
  | String a r =>
      if Ascii.eqb a "e" || Ascii.eqb a "E" then
        let '(negative, r') := take_sign r in
        let '(ds, _) := take_digits r' in
        match ds with
        | EmptyString => 0
        | _ => if negative then - JSString.digits_value 0 ds else JSString.digits_value 0 ds
        end
      else 0
  | EmptyString => 0
  end.

Definition scale10 (m e : Z) : Q :=
  if e <? 0 then Qmake m (Z.to_pos (10 ^ (- e))) else inject_Z (m * 10 ^ e).

(** The longest prefix of the text, after leading white space, that is a
    decimal literal; NaN when there is none. *)
Definition parseFloat (text : string) : real :=
  let '(negative, s) := take_sign (JSString.trimStart text) in
  if String.prefix "Infinity" s then Infinity negative
  else
    let '(int_part, s1) := take_digits s in
    let '(frac_part, s2) :=
      match s1 with
      | String "." r => take_digits r
      | _ => (EmptyString, s1)
      end in
    match (int_part ++ frac_part)%string with
    | EmptyString => NaN
    | mantissa =>
        let m := JSString.digits_value 0 mantissa in
        let e := take_exponent s2 - Z.of_nat (String.length frac_part) in
        finite (scale10 (if negative then - m else m) e)
    end.

(** *** [toFixed] *)

(** [n] printed with [d] digits after the point, [n] being the value
    times [10^d]. *)
Definition fixed_point (n : Z) (d : nat) : string :=
  let ds := JSString.digits_of n in
  let ds := (JSString.repeat_char "0" (S d - String.length ds) ++ ds)%string in
  let k := (String.length ds - d)%nat in
  match d with
  | O => ds
  | _ => (String.substring 0 k ds ++ "." ++ String.substring k d ds)%string
  end.

Definition toFixed_digits (a : real) (d : nat) : string :=
  match a with
  | NaN => "NaN"
  | Infinity true => "-Infinity"
  | Infinity false => "Infinity"
  | Finite q =>
      let x := Qabs q in
      let body :=
        if Qle_bool (inject_Z (10 ^ 21)) x then exponent_form (Qfloor (x + (1 # 2))%Q)
        else fixed_point (Qfloor (x * inject_Z (10 ^ Z.of_nat d) + (1 # 2))%Q) d in
      if is_neg q then ("-" ++ body)%string else body
  end.

Lemma ltb_irreflexive (x : real) : ltb x x = false.
Proof.
  destruct x as [|s|q]; simpl; [done|by destruct s|].
  apply negb_false_iff, Qle_bool_iff, Qle_refl.
Qed.

#[global] Instance number : JSNumber :=
  Build_JSNumber real finite add sub mul div ltb leb eqb isNaN NaN
    Math_min Math_max Math_round Math_ceil Math_exp parseFloat toFixed_digits
    ltb_irreflexive.

End Ideal.

(** ** Colour schemes over exact arithmetic *)

Module Palette.

(** A stop with a position in [[0, 1]] and channels in [[0, 255]]. *)
Definition valid_stop (s : colorStop) : bool :=
  match stop_value s with
  | Ideal.Finite q => Qle_bool 0 q && Qle_bool q 1
  | _ => false
  end
  && let '(r, g, b) := stop_color s in
     (0 <=? r) && (r <=? 255) && (0 <=? g) && (g <=? 255) && (0 <=? b) && (b <=? 255).

(** Valid stops, the first at 0 and the last at 1. *)
Definition valid_scheme (s : colorScheme) : bool :=
  forallb valid_stop (colors s)
  && match colors s !! 0%nat, colors s !! (length (colors s) - 1)%nat with
     | Some lo, Some hi =>
         Ideal.eqb (stop_value lo) (Ideal.finite 0)
         && Ideal.eqb (stop_value hi) (Ideal.finite 1)
     | _, _ => false
     end.

(** The colour of a stop as channels. *)
Definition stop_rgb (s : @colorStop Ideal.number) : integral * integral * integral :=
  let '(r, g, b) := stop_color s in (Int r, Int g, Int b).




End Palette.

(** * The rest of the utilities and of the plugin class *)

(** ** The rest of the colour utilities *)

Section Colours.
Context {N : JSNumber}.

(** [COLOR_SCHEMES[key]]: the scheme under an own key of the object.  Any
    other key reads [undefined], or a member of [Object.prototype]. *)
Definition scheme_of_key (key : string) : option colorScheme :=
  if String.eqb key "THERMAL" then Some THERMAL
  else if String.eqb key "GRAYSCALE" then Some GRAYSCALE
  else if String.eqb key "VIRIDIS" then Some VIRIDIS
  else if String.eqb key "AUTOMOTIVE" then Some AUTOMOTIVE
  else None.

(** [getSchemeColor(scheme)].  For a key that is not a scheme,
    [COLOR_SCHEMES[scheme].colors] is [undefined] (or reading it throws),
    and [colors.length] throws a TypeError; so does [.color] of a stop that
    is missing. *)
Definition getSchemeColor (scheme : string) : outcome string :=
  match scheme_of_key scheme with
  | None => Throws TypeError
  | Some s =>
      let colors := colors s in
      match colors !! (length colors / 2)%nat with
      | None => Throws TypeError
      | Some stop =>
          let '(r, g, b) := stop_color stop in
          Returns (rgb_string (Int r, Int g, Int b))
      end
  end.

End Colours.

(** Colour stops over exact arithmetic. *)
Module Gradient.

(** Stop positions that strictly increase. *)
Fixpoint ascending (cs : list (@colorStop Ideal.number)) : bool :=
  match cs with
  | a :: rest =>
      match rest with
      | b :: _ => Ideal.ltb (stop_value a) (stop_value b) && ascending rest
      | [] => true
      end
  | [] => true
  end.

(** The position of a stop, as a rational. *)
Definition position (s : @colorStop Ideal.number) : Q :=
  match stop_value s with
  | Ideal.Finite q => q
  | _ => 0
  end.


End Gradient.

(** ** The range of a table *)

(** The global [Infinity] and the unary minus, which [getMinMaxValues]
    uses beside the operations of [JSNumber]. *)
Class JSInfinity (N : JSNumber) : Type := {
  infinity : num;
  negate : num -> num;
}.

#[global] Instance ideal_infinity : JSInfinity Ideal.number :=
  {| infinity := Ideal.Infinity false; negate := Ideal.neg |}.

Section MinMax.
Context {N : JSNumber} {I : JSInfinity N}.

(** The object [{ min, max, hasValues }]. *)
Record minMax : Type := MinMax {
  minValue : num;
  maxValue : num;
  hasValues : bool;
}.

(** [getMinMaxValues(content, skipFirstRow, skipFirstColumn)] *)
Definition getMinMaxValues (content : grid) (skipFirstRow skipFirstColumn : bool)
  : minMax :=
  let startRow := start_of skipFirstRow in
  let startCol := start_of skipFirstColumn in
  let '(min, max, hasValues) :=
    foldl (fun acc i =>
      foldl (fun '(min, max, hasValues) j =>
        match parseNumericValue (cell_at content i j) with
        | Some value => (Math_min min value, Math_max max value, true)
        | None => (min, max, hasValues)
        end)
        acc (seq startCol (row_length content i - startCol)))
      (infinity, negate infinity, false)
      (seq startRow (length content - startRow)) in
  if hasValues then MinMax min max true else MinMax (of_Z 0) (of_Z 1) false.

(** The numbers of the cells of the mask, in the order of the loops. *)
Definition numeric_values (content : grid) (startRow startCol : nat) : list num :=
  ij ← cells content startRow startCol;
  option_list (parseNumericValue (cell_at content ij.1 ij.2)).

End MinMax.

Section MinMaxValues.
Context {N : JSNumber}.

(** What one numeric cell does to [(min, max, hasValues)]. *)
Definition widen (acc : num * num * bool) (value : num) : num * num * bool :=
  let '(min, max, _) := acc in (Math_min min value, Math_max max value, true).

End MinMaxValues.

(** ** Intervals of exact numbers *)

Module Interval.

(** A number that is not NaN. *)
Definition is_number (x : Ideal.real) : Prop := Ideal.isNaN x = false.



End Interval.

(** ** The plugin class: saved data, tunes and the calls on the table *)

(** [parseInt(s)] without a radix, on exact integers; [None] is NaN. *)
Module JSGlobal.

Definition hex_digit (c : ascii) : option Z :=
  let n := Z.of_N (N_of_ascii c) in
  if (48 <=? n) && (n <=? 57) then Some (n - 48)
  else if (97 <=? n) && (n <=? 102) then Some (n - 87)
  else if (65 <=? n) && (n <=? 70) then Some (n - 55)
  else None.

Definition digit_in (radix : Z) (c : ascii) : option Z :=
  match hex_digit c with
  | Some d => if d <? radix then Some d else None
  | None => None
  end.

(** The value of the longest prefix of digits of the radix, [None] when
    the text does not start with one. *)
Fixpoint leading_digits (radix : Z) (acc : option Z) (s : string) : option Z :=
  match s with
  | EmptyString => acc
  | String a r =>
      match digit_in radix a with
      | Some d => leading_digits radix (Some (radix * default 0 acc + d)) r
      | None => acc
      end
  end.

Definition parseInt (text : string) : option Z :=
  let '(negative, s) := Ideal.take_sign (JSString.trimStart text) in
  let '(radix, s) :=
    match s with
    | String "0" (String x r) =>
        if Ascii.eqb x "x" || Ascii.eqb x "X" then (16, r) else (10, s)
    | _ => (10, s)
    end in
  match leading_digits radix None s with
  | Some n => Some (if negative then - n else n)
  | None => None
  end.

End JSGlobal.

Section Plugin.
Context {N : JSNumber}.

(** The values a field of the saved data or of the tool's configuration
    holds; the table content is an array of rows. *)
Inductive jsValue : Type :=
  | VUndefined
  | VNull
  | VBoolean (b : bool)
  | VNumber (n : num)
  | VText (s : string)
  | VRows (content : grid).

(** The conversion to boolean of a condition. *)
Definition truthy (v : jsValue) : bool :=
  match v with
  | VUndefined | VNull => false
  | VBoolean b => b
  | VNumber n => negb (isNaN n || eqb n (of_Z 0))
  | VText s => negb (String.eqb s "")
  | VRows _ => true
  end.

(** [v === 'text'] *)
Definition is_text (v : jsValue) (s : string) : bool :=
  match v with
  | VText t => String.eqb t s
  | _ => false
  end.

(** [v === true] and [v === false] *)
Definition is_boolean (v : jsValue) (b : bool) : bool :=
  match v with
  | VBoolean c => Bool.eqb c b
  | _ => false
  end.

(** An object, by what reading a property gives: [VUndefined] for a key
    it does not have. *)
Definition object : Type := string -> jsValue.

(** [o[key]] *)
Definition get (o : object) (key : string) : jsValue := o key.

(** [getConfig(configName, defaultValue, savedData)], with [this.data] and
    [this.config] as arguments; [None] is an object that is [undefined] or
    [null]. *)
Definition getConfig (this_data this_config : option object)
    (configName : string) (defaultValue : jsValue) (savedData : option object)
  : jsValue :=
  let data := match this_data with Some d => Some d | None => savedData end in
  match data with
  | Some data =>
      if truthy (get data configName) then get data configName else defaultValue
  | None =>
      match this_config with
      | Some config =>
          if truthy (get config configName) then get config configName else defaultValue
      | None => defaultValue
      end
  end.

(** [this.data] *)
Record tableData : Type := TableData {
  withHeadings : jsValue;
  stretched : jsValue;
  gradientColors : jsValue;
  colorScheme_name : jsValue;
  showTableTitle : jsValue;
  tableTitle : jsValue;
  showAxisTitles : jsValue;
  horizontalTitle : jsValue;
  verticalTitle : jsValue;
  skipHeadings : jsValue;
  data_content : jsValue;
}.

(** The object the constructor assigns to [this.data]; while it is built
    [this.data] is still [undefined]. *)
Definition TableBlock_constructor (data config : option object) : tableData :=
  let getConfig := getConfig None config in
  {| withHeadings := getConfig "withHeadings" (VBoolean false) data;
     stretched := getConfig "stretched" (VBoolean false) data;
     gradientColors := getConfig "gradientColors" (VBoolean false) data;
     colorScheme_name := getConfig "colorScheme" (VText "THERMAL") data;
     showTableTitle := getConfig "showTableTitle" (VBoolean false) data;
     tableTitle := getConfig "tableTitle" (VText "") data;
     showAxisTitles := getConfig "showAxisTitles" (VBoolean false) data;
     horizontalTitle := getConfig "horizontalTitle" (VText "") data;
     verticalTitle := getConfig "verticalTitle" (VText "") data;
     skipHeadings := getConfig "skipHeadings" (VBoolean false) data;
     data_content :=
       match data with
       | Some d => if truthy (get d "content") then get d "content" else VRows []
       | None => VRows []
       end |}.

(** The calls the plugin makes on its table. *)
Inductive tableCall : Type :=
  | SetHeadingsSetting (withHeadings : jsValue)
  | ApplyGradientColors
  | SetCellContent (row col : nat) (text : string).

(** [isActive] of the three items of the headings menu. *)
Definition rowHeadings_isActive (d : tableData) : bool :=
  is_text (withHeadings d) "row" || is_text (withHeadings d) "both".

Definition columnHeadings_isActive (d : tableData) : bool :=
  is_text (withHeadings d) "column" || is_text (withHeadings d) "both".

Definition noHeadings_isActive (d : tableData) : bool :=
  negb (truthy (withHeadings d)) || is_boolean (withHeadings d) false.

Definition set_withHeadings (d : tableData) (v : jsValue) : tableData :=
  {| withHeadings := v;
     stretched := stretched d;
     gradientColors := gradientColors d;
     colorScheme_name := colorScheme_name d;
     showTableTitle := showTableTitle d;
     tableTitle := tableTitle d;
     showAxisTitles := showAxisTitles d;
     horizontalTitle := horizontalTitle d;
     verticalTitle := verticalTitle d;
     skipHeadings := skipHeadings d;
     data_content := data_content d |}.

(** The end of the three handlers:
    [this.table.setHeadingsSetting(this.data.withHeadings);
     if (this.data.gradientColors) this.table.applyGradientColors()]. *)
Definition headings_changed (d : tableData) : tableData * list tableCall :=
  (d, SetHeadingsSetting (withHeadings d)
      :: if truthy (gradientColors d) then [ApplyGradientColors] else []).

(** [onActivate] of the item [rowHeadings]. *)
Definition rowHeadings_onActivate (d : tableData) : tableData * list tableCall :=
  let currentHeadings := withHeadings d in
  headings_changed
    (set_withHeadings d
       (if is_text currentHeadings "row" then VBoolean false
        else if is_text currentHeadings "column" then VText "both"
        else if is_text currentHeadings "both" then VText "column"
        else VText "row")).

(** [onActivate] of the item [columnHeadings]. *)
Definition columnHeadings_onActivate (d : tableData) : tableData * list tableCall :=
  let currentHeadings := withHeadings d in
  headings_changed
    (set_withHeadings d
       (if is_text currentHeadings "column" then VBoolean false
        else if is_text currentHeadings "row" then VText "both"
        else if is_text currentHeadings "both" then VText "row"
        else VText "column")).

(** [onActivate] of the item [noHeadings]. *)
Definition noHeadings_onActivate (d : tableData) : tableData * list tableCall :=
  headings_changed (set_withHeadings d (VBoolean false)).

(** [this.data.skipHeadings && (this.data.withHeadings === 'row' ||
     this.data.withHeadings === 'both')], as the condition
    [skipFirstRow ? 1 : 0] reads it; and the same for the first column. *)
Definition skipFirstRow_of (d : tableData) : bool :=
  truthy (skipHeadings d) && rowHeadings_isActive d.

Definition skipFirstCol_of (d : tableData) : bool :=
  truthy (skipHeadings d) && columnHeadings_isActive d.

(** The cells [(i, j)] of a grid in the order of
    [for (i < g.length) for (j < g[i].length)], with their texts. *)
Definition all_cells (g : grid) : list (nat * nat * string) :=
  i ← seq 0 (length g);
  j ← seq 0 (row_length g i);
  option_list ((fun t => (i, j, t)) <$> cell_at g i j).

(** [if (this.data.gradientColors) this.table.applyGradientColors()] *)
Definition reapply_gradient (d : tableData) : list tableCall :=
  if truthy (gradientColors d) then [ApplyGradientColors] else [].

(** [applyAutoFill()], with the table's data [this.table.getData()] as an
    argument: the calls it makes on the table. *)
Definition applyAutoFill (d : tableData) (content : grid) : outcome (list tableCall) :=
  let skipFirstRow := skipFirstRow_of d in
  let skipFirstCol := skipFirstCol_of d in
  filledContent ← autoFillBlanks content skipFirstRow skipFirstCol;
  Returns
    ((ijt ← all_cells filledContent;
      let '(i, j, text) := ijt in
      if decide (Some text <> cell_at content i j)
      then [SetCellContent (i + 1) (j + 1) text] else [])
     ++ reapply_gradient d)%list.

(** [parseInt(windowSize) || 3] and [parseFloat(sigma) || 1.0] *)
Definition windowSize_argument (windowSize : string) : Z :=
  match JSGlobal.parseInt windowSize with
  | Some w => if w =? 0 then 3 else w
  | None => 3
  end.

Definition sigma_argument (sigma : string) : num :=
  let s := parseFloat sigma in
  if isNaN s || eqb s (of_Z 0) then of_Z 1 else s.

(** [applySmoothingMethod(method)], with the table's data and the answer
    to the prompt ([None] is [null], the prompt cancelled) as arguments:
    the calls it makes on the table. *)
Definition applySmoothingMethod (d : tableData) (content : grid) (method : string)
    (answer : option string) : outcome (list tableCall) :=
  let skipFirstRow := skipFirstRow_of d in
  let skipFirstCol := skipFirstCol_of d in
  let write_back (smoothedContent : grid) : list tableCall :=
    ((ijt ← all_cells smoothedContent;
     let '(i, j, text) := ijt in [SetCellContent (i + 1) (j + 1) text])
    ++ reapply_gradient d)%list in
  if String.eqb method "movingAverage" then
    match answer with
    | None => Returns []
    | Some windowSize =>
        smoothedContent ← applyMovingAverage content (windowSize_argument windowSize)
                            skipFirstRow skipFirstCol;
        Returns (write_back smoothedContent)
    end
  else if String.eqb method "gaussian" then
    match answer with
    | None => Returns []
    | Some sigma =>
        smoothedContent ← applyGaussianSmoothing content (sigma_argument sigma)
                            skipFirstRow skipFirstCol;
        Returns (write_back smoothedContent)
    end
  else if String.eqb method "bilinear" then
    smoothedContent ← applyBilinearInterpolation content skipFirstRow skipFirstCol;
    Returns (write_back smoothedContent)
  else Returns [].

End Plugin.

(** * Properties *)

(** ** The loop skeleton *)

Section LoopFacts.
Context {N : JSNumber}.

Lemma for_each_app {I S : Type} (l1 l2 : list I) (body : I -> S -> outcome S) (s : S) :
  for_each (l1 ++ l2) body s = (s' ← for_each l1 body s; for_each l2 body s').
Proof.
  revert s. induction l1 as [|i l1 IH]; intros s; simpl; [done|].
  destruct (body i s); simpl; auto.
Qed.

Lemma for_each_nested {I J S : Type} (l : list I) (f : I -> list J)
    (body : I -> J -> S -> outcome S) (s : S) :
  for_each l (fun i => for_each (f i) (body i)) s
  = for_each (i ← l; pair i <$> f i) (fun ij => body ij.1 ij.2) s.
Proof.
  revert s. induction l as [|i l IH]; intros s; simpl; [done|].
  rewrite for_each_app.
  assert (E : forall s0, for_each (pair i <$> f i) (fun ij => body ij.1 ij.2) s0
                   = for_each (f i) (body i) s0).
  { intros s0. revert s0. induction (f i) as [|j js IHj]; intros s0; simpl; [done|].
    destruct (body i j s0); simpl; auto. }
  rewrite E. destruct (for_each (f i) (body i) s); simpl; auto.
Qed.

Lemma cell_at_set_cell (res : grid) (i j i' j' : nat) (t : string) :
  cell_at (set_cell res i j t) i' j'
  = if decide (i = i' /\ j = j') then (fun _ => t) <$> cell_at res i' j' else cell_at res i' j'.
Proof.
  unfold cell_at, set_cell.
  destruct (decide (i = i')) as [->|Hi].
  - rewrite list_lookup_alter_eq. destruct (res !! i') as [row|]; simpl.
    + destruct (decide (j = j')) as [->|Hj].
      * rewrite decide_True by done.
        destruct (row !! j') eqn:E.
        -- rewrite list_lookup_insert_eq; [done|]. by eapply lookup_lt_Some.
        -- rewrite list_insert_ge; [by rewrite E|]. by apply lookup_ge_None.
      * rewrite decide_False by tauto. by rewrite list_lookup_insert_ne.
    + by destruct (decide _).
  - rewrite list_lookup_alter_ne by done. rewrite decide_False by tauto. done.
Qed.


Lemma pure_body_step rule content a b res :
  pure_body rule content (a, b) res
  = match rule content a b with
    | Returns t => Returns (match t with Some text => set_cell res a b text | None => res end)
    | Throws e => Throws e
    | Diverges => Diverges
    end.
Proof. unfold pure_body, write_cell. simpl. by destruct (rule content a b). Qed.

Lemma length_set_cell (res : grid) i j t : length (set_cell res i j t) = length res.
Proof. unfold set_cell. by rewrite length_alter. Qed.

Lemma grid_ext (g1 g2 : grid) :
  length g1 = length g2 ->
  (forall i j, cell_at g1 i j = cell_at g2 i j) ->
  g1 = g2.
Proof.
  intros Hlen Hcell. apply list_eq_same_length with (length g1); [done..|].
  intros i r1 r2 Hi H1 H2.
  apply list_eq. intros j. specialize (Hcell i j).
  unfold cell_at in Hcell. by rewrite H1, H2 in Hcell.
Qed.

Lemma for_each_pure_Returns rule content order res out :
  for_each order (pure_body rule content) res = Returns out ->
  (forall ij, ij ∈ order -> exists t, rule content ij.1 ij.2 = Returns t)
  /\ length out = length res
  /\ forall i j,
      cell_at out i j
      = if bool_decide ((i, j) ∈ order)
        then (fun old => default old (written rule content i j)) <$> cell_at res i j
        else cell_at res i j.
Proof.
  revert res. induction order as [|[a b] order IH]; intros res H; simpl in H.
  - injection H as <-. split; [|split; [done|]].
    + intros ij Hin. by apply elem_of_nil in Hin.
    + intros i j. rewrite bool_decide_eq_false_2; [done|]. apply not_elem_of_nil.
  - rewrite pure_body_step in H.
    destruct (rule content a b) as [t| |] eqn:Hr; simpl in H; try discriminate.
    apply IH in H as (Hall & Hlen & Hcell).
    split; [|split].
    + intros ij [->|Hin]%elem_of_cons; [eauto|auto].
    + rewrite Hlen. destruct t; [apply length_set_cell|done].
    + intros i j. rewrite Hcell.
      assert (Hw : cell_at (match t with Some text => set_cell res a b text | None => res end) i j
                   = if decide (a = i /\ b = j)
                     then (fun old => default old (written rule content i j)) <$> cell_at res i j
                     else cell_at res i j).
      { destruct t as [text|].
        - rewrite cell_at_set_cell. destruct (decide _) as [[-> ->]|]; [|done].
          unfold written. rewrite Hr. done.
        - destruct (decide _) as [[-> ->]|]; [|done].
          unfold written. rewrite Hr. simpl. by destruct (cell_at res i j). }
      rewrite Hw. clear Hw.
      destruct (decide (a = i /\ b = j)) as [[-> ->]|Hne].
      * rewrite (bool_decide_eq_true_2 ((i, j) ∈ (i, j) :: order)) by apply list_elem_of_here.
        case_bool_decide; [|done].
        destruct (cell_at res i j); simpl; [|done].
        by destruct (written rule content i j).
      * assert (Hiff : (i, j) ∈ (a, b) :: order <-> (i, j) ∈ order).
        { rewrite elem_of_cons. split; [|tauto]. intros [[= -> ->]|]; [tauto|done]. }
        repeat case_bool_decide; tauto.
Qed.

Lemma for_each_pure_total rule content order res :
  (forall ij, ij ∈ order -> exists t, rule content ij.1 ij.2 = Returns t) ->
  exists out, for_each order (pure_body rule content) res = Returns out.
Proof.
  revert res. induction order as [|[a b] order IH]; intros res H; simpl; [eauto|].
  destruct (H (a, b)) as [t Ht]; [apply list_elem_of_here|].
  rewrite pure_body_step. simpl in Ht. rewrite Ht. simpl.
  apply IH. intros ij Hin. apply H. by apply list_elem_of_further.
Qed.

Lemma for_each_pure_not_Returns rule content order res :
  (forall out, for_each order (pure_body rule content) res <> Returns out) ->
  exists ij, ij ∈ order /\ forall t, rule content ij.1 ij.2 <> Returns t.
Proof.
  revert res. induction order as [|[a b] order IH]; intros res H; simpl in H.
  - by destruct (H res).
  - setoid_rewrite pure_body_step in H.
    destruct (rule content a b) as [t| |] eqn:Hr; simpl in H.
    + destruct (IH _ H) as (ij & Hin & Hij). exists ij. split; [by apply list_elem_of_further|done].
    + exists (a, b). split; [apply list_elem_of_here|]. simpl. congruence.
    + exists (a, b). split; [apply list_elem_of_here|]. simpl. congruence.
Qed.


Lemma row_length_lt content i j : (j < row_length content i)%nat -> (i < length content)%nat.
Proof.
  unfold row_length. destruct (content !! i) eqn:E; [|lia].
  intros _. by eapply lookup_lt_Some.
Qed.

Lemma elem_of_cells content sr sc i j :
  (i, j) ∈ cells content sr sc <-> in_mask content sr sc i j.
Proof.
  unfold cells, in_mask. rewrite list_elem_of_bind. split.
  - intros (i' & Hj & Hi). apply list_elem_of_fmap in Hj as (j' & [= -> ->] & Hj).
    apply elem_of_seq in Hi, Hj. lia.
  - intros (Hi & Hj). exists i. split.
    + apply list_elem_of_fmap. exists j. split; [done|]. apply elem_of_seq. lia.
    + apply elem_of_seq. pose proof (row_length_lt content i j). lia.
Qed.

Lemma grid_loop_cells rule content sr sc :
  grid_loop rule content sr sc
  = for_each (cells content sr sc) (pure_body rule content) content.
Proof. unfold grid_loop, cells. by rewrite for_each_nested. Qed.

(** What a grid loop that returns has done, cell by cell. *)
Lemma grid_loop_Returns rule content sr sc out :
  grid_loop rule content sr sc = Returns out ->
  (forall i j, in_mask content sr sc i j -> exists t, rule content i j = Returns t)
  /\ length out = length content
  /\ forall i j,
      cell_at out i j
      = if bool_decide (in_mask content sr sc i j)
        then (fun old => default old (written rule content i j)) <$> cell_at content i j
        else cell_at content i j.
Proof.
  rewrite grid_loop_cells. intros (Hall & Hlen & Hcell)%for_each_pure_Returns.
  split; [|split; [done|]].
  - intros i j Hin. apply (Hall (i, j)). by apply elem_of_cells.
  - intros i j. rewrite Hcell.
    destruct (decide (in_mask content sr sc i j)) as [Hin|Hin].
    + rewrite !bool_decide_eq_true_2; [done..|by apply elem_of_cells].
    + rewrite !bool_decide_eq_false_2; [done..|by rewrite elem_of_cells].
Qed.

Lemma grid_loop_total rule content sr sc :
  (forall i j, in_mask content sr sc i j -> exists t, rule content i j = Returns t) ->
  exists out, grid_loop rule content sr sc = Returns out.
Proof.
  intros H. rewrite grid_loop_cells. apply for_each_pure_total.
  intros [i j] Hin. apply H. by apply elem_of_cells.
Qed.

Lemma grid_loop_not_Returns rule content sr sc :
  (forall out, grid_loop rule content sr sc <> Returns out) ->
  exists i j, in_mask content sr sc i j /\ forall t, rule content i j <> Returns t.
Proof.
  intros H. setoid_rewrite grid_loop_cells in H.
  apply for_each_pure_not_Returns in H as ([i j] & Hin & Hr).
  exists i, j. split; [by apply elem_of_cells|done].
Qed.

(** A loop whose rule leaves every cell alone returns the grid as it is. *)
Lemma grid_loop_id rule content sr sc :
  (forall i j, in_mask content sr sc i j -> rule content i j = Returns None) ->
  grid_loop rule content sr sc = Returns content.
Proof.
  intros H. destruct (grid_loop_total rule content sr sc) as [out Hout]; [eauto|].
  rewrite Hout. f_equal.
  apply grid_loop_Returns in Hout as (_ & Hlen & Hcell).
  apply grid_ext; [done|]. intros i j. rewrite Hcell.
  case_bool_decide as Hin; [|done].
  unfold written. rewrite (H i j Hin). by destruct (cell_at content i j).
Qed.

Lemma for_each_pure_ext rule1 rule2 content order res :
  (forall ij, ij ∈ order -> rule1 content ij.1 ij.2 = rule2 content ij.1 ij.2) ->
  for_each order (pure_body rule1 content) res
  = for_each order (pure_body rule2 content) res.
Proof.
  revert res. induction order as [|[a b] order IH]; intros res Hin; [done|].
  simpl. rewrite !pure_body_step.
  pose proof (Hin (a, b) (list_elem_of_here _ _)) as Hab. simpl in Hab. rewrite Hab.
  destruct (rule2 content a b); simpl; [|done..].
  apply IH. intros ij Hij. apply Hin. by apply list_elem_of_further.
Qed.

(** Two rules that agree inside the mask give the same loop. *)
Lemma grid_loop_ext rule1 rule2 content sr sc :
  (forall i j, in_mask content sr sc i j -> rule1 content i j = rule2 content i j) ->
  grid_loop rule1 content sr sc = grid_loop rule2 content sr sc.
Proof.
  intros H. rewrite !grid_loop_cells. apply for_each_pure_ext.
  intros [i j] Hin. apply H. by apply elem_of_cells.
Qed.

End LoopFacts.

(** ** Index ranges *)

Section RangeFacts.

Lemma filter_seqZ_range (lo hi m n : Z) :
  filter (fun z => lo <= z <= hi) (seqZ m n)
  = seqZ (Z.max m lo) (Z.min (m + n) (hi + 1) - Z.max m lo).
Proof.
  destruct (Z_le_gt_dec n 0) as [Hn|Hn].
  { rewrite (seqZ_nil m) by done. rewrite seqZ_nil by lia. done. }
  rewrite <-(Z2Nat.id n) by lia. generalize (Z.to_nat n). clear. intros k.
  revert m. induction k as [|k IH]; intros m.
  - rewrite seqZ_nil by lia. rewrite seqZ_nil by lia. done.
  - rewrite seqZ_cons by lia. rewrite filter_cons.
    replace (Z.pred (Z.of_nat (S k))) with (Z.of_nat k) by lia.
    rewrite IH. destruct (decide (lo <= m <= hi)) as [Hm|Hm].
    + rewrite (seqZ_cons (Z.max m lo)) by lia. f_equal; [lia|]. f_equal; lia.
    + destruct (Z_lt_ge_dec m lo).
      * f_equal; lia.
      * rewrite !seqZ_nil by lia. done.
Qed.

Lemma seqZ_of_nat (a n : nat) : Z.of_nat <$> seq a n = seqZ (Z.of_nat a) (Z.of_nat n).
Proof.
  unfold seqZ. rewrite Nat2Z.id.
  replace (seq a n) with (Nat.add a <$> seq 0 n) by (rewrite fmap_add_seq; f_equal; lia).
  rewrite <-list_fmap_compose. apply list_fmap_ext. intros _ x _. simpl. lia.
Qed.

Lemma bind_guard {A B} (P : A -> Prop) `{forall x, Decision (P x)} (G : A -> list B) (l : list A) :
  (x ← l; if decide (P x) then G x else []) = (x ← filter P l; G x).
Proof.
  induction l as [|x l IH]; [done|].
  rewrite filter_cons. csimpl. rewrite IH. by destruct (decide (P x)).
Qed.

Lemma bind_fmap {A B C} (f : A -> B) (G : B -> list C) (l : list A) :
  (y ← f <$> l; G y) = (x ← l; G (f x)).
Proof. induction l as [|x l IH]; [done|]. csimpl. by rewrite IH. Qed.

Lemma fmap_filter {A B} (f : A -> B) (P : B -> Prop) (Q : A -> Prop)
    `{forall y, Decision (P y)} `{forall x, Decision (Q x)} (l : list A) :
  (forall x, Q x <-> P (f x)) ->
  f <$> filter Q l = filter P (f <$> l).
Proof.
  intros HPQ. induction l as [|x l IH]; [done|]. csimpl. rewrite !filter_cons.
  destruct (decide (Q x)) as [HQ|HQ], (decide (P (f x))) as [HP|HP]; csimpl;
    rewrite ?IH; try done; apply HPQ in HQ || apply HPQ in HP; done.
Qed.

Lemma bind_ext {A B} (G1 G2 : A -> list B) (l : list A) :
  (forall x, x ∈ l -> G1 x = G2 x) -> (x ← l; G1 x) = (x ← l; G2 x).
Proof.
  induction l as [|x l IH]; intros H; [done|]. csimpl.
  rewrite H by apply list_elem_of_here. f_equal. apply IH.
  intros y Hy. apply H. by apply list_elem_of_further.
Qed.

(** A loop over offsets [-h..h] around [c], guarded by a range test on
    [c + d], visits the indices of the range within distance [h] of [c]. *)
Lemma offsets_as_indices {B} (G : nat -> list B) (a n c : nat) (h : Z) :
  (d ← zrange (- h) h;
   if decide (Z.of_nat a <= Z.of_nat c + d < Z.of_nat a + Z.of_nat n)
   then G (Z.to_nat (Z.of_nat c + d)) else [])
  = (k ← seq a n;
     if decide (Z.abs (Z.of_nat k - Z.of_nat c) <= h) then G k else []).
Proof.
  unfold zrange.
  rewrite (bind_guard (fun d => Z.of_nat a <= Z.of_nat c + d < Z.of_nat a + Z.of_nat n)).
  rewrite (bind_guard (fun k => Z.abs (Z.of_nat k - Z.of_nat c) <= h)).
  transitivity (z ← seqZ (Z.max (Z.of_nat a) (Z.of_nat c - h))
                  (Z.min (Z.of_nat a + Z.of_nat n) (Z.of_nat c + h + 1)
                   - Z.max (Z.of_nat a) (Z.of_nat c - h)); G (Z.to_nat z)).
  - rewrite (list_filter_iff _ (fun d => Z.of_nat a - Z.of_nat c <= d
                                     <= Z.of_nat a + Z.of_nat n - Z.of_nat c - 1))
      by (intros; lia).
    rewrite filter_seqZ_range.
    rewrite <-(bind_fmap (Z.add (Z.of_nat c)) (fun z => G (Z.to_nat z))).
    rewrite fmap_add_seqZ. f_equal. f_equal; lia.
  - rewrite (bind_ext G (fun k => G (Z.to_nat (Z.of_nat k))))
      by (intros; by rewrite Nat2Z.id).
    rewrite <-(bind_fmap Z.of_nat (fun z => G (Z.to_nat z))).
    rewrite (fmap_filter Z.of_nat (fun z => Z.abs (z - Z.of_nat c) <= h)
               (fun k => Z.abs (Z.of_nat k - Z.of_nat c) <= h)) by done.
    rewrite seqZ_of_nat.
    rewrite (list_filter_iff (fun z => Z.abs (z - Z.of_nat c) <= h)
               (fun z => Z.of_nat c - h <= z <= Z.of_nat c + h))
      by (intros; lia).
    by rewrite filter_seqZ_range.
Qed.
End RangeFacts.

(** ** Moving average *)

Section MovingAverageFacts.
Context {N : JSNumber}.

Lemma foldl_bind {A B C} (f : C -> B -> C) (g : A -> list B) (l : list A) (c : C) :
  foldl f c (x ← l; g x) = foldl (fun acc x => foldl f acc (g x)) c l.
Proof.
  revert c. induction l as [|x l IH]; intros c; [done|].
  csimpl. by rewrite foldl_app, IH.
Qed.

Lemma collect_loop {A} (B : A -> bool) (P : A -> option num) (l : list A) s c :
  foldl (fun '(sum, count) x =>
           if B x then
             match P x with
             | Some v => (add sum v, S count)
             | None => (sum, count)
             end
           else (sum, count)) (s, c) l
  = (foldl add s (x ← l; if B x then option_list (P x) else []),
     (c + length (x ← l; if B x then option_list (P x) else []))%nat).
Proof.
  revert s c. induction l as [|x l IH]; intros s c; csimpl; [f_equal; lia|].
  destruct (B x); [destruct (P x)|]; simpl; rewrite IH; f_equal; lia.
Qed.

Lemma collect_loops {A} (B : A -> A -> bool) (P : A -> A -> option num)
    (rows cols : list A) s c :
  foldl (fun acc di =>
           foldl (fun '(sum, count) dj =>
                    if B di dj then
                      match P di dj with
                      | Some v => (add sum v, S count)
                      | None => (sum, count)
                      end
                    else (sum, count)) acc cols) (s, c) rows
  = (foldl add s (di ← rows; dj ← cols; if B di dj then option_list (P di dj) else []),
     (c + length (di ← rows; dj ← cols;
                  if B di dj then option_list (P di dj) else []))%nat).
Proof.
  revert s c. induction rows as [|di rows IH]; intros s c; csimpl; [f_equal; lia|].
  rewrite (collect_loop (B di) (P di)), IH, foldl_app, length_app. f_equal. lia.
Qed.

Lemma window_sum_collected content sr sc h i j :
  window_sum content sr sc h i j
  = (foldl add (of_Z 0) (collected content sr sc h i j),
     length (collected content sr sc h i j)).
Proof.
  unfold window_sum, collected.
  exact (collect_loops
           (fun di dj => in_window_bounds content sr sc i (Z.of_nat i + di) (Z.of_nat j + dj))
           (fun di dj => parseNumericValue
                           (cell_at content (Z.to_nat (Z.of_nat i + di))
                              (Z.to_nat (Z.of_nat j + dj))))
           (zrange (- h) h) (zrange (- h) h) (of_Z 0) 0%nat).
Qed.

(** The loops collect the window of the cell: rows of the mask within
    [h] of [i], columns of the mask below [content[i].length] within [h]
    of [j]. *)
Lemma collected_window content sr sc h i j :
  collected content sr sc h i j = window_values content sr sc h i j.
Proof.
  unfold collected, window_values.
  set (G := fun ni nj => option_list (parseNumericValue (cell_at content ni nj))).
  transitivity
    (ni ← seq sr (length content - sr);
     if decide (Z.abs (Z.of_nat ni - Z.of_nat i) <= h)
     then (nj ← seq sc (row_length content i - sc);
           if decide (Z.abs (Z.of_nat nj - Z.of_nat j) <= h) then G ni nj else [])
     else []).
  - rewrite <-(offsets_as_indices _ sr (length content - sr) i h).
    apply bind_ext. intros di _.
    destruct (decide (Z.of_nat sr <= Z.of_nat i + di
                      < Z.of_nat sr + Z.of_nat (length content - sr))) as [Hr|Hr].
    + rewrite <-(offsets_as_indices _ sc (row_length content i - sc) j h).
      apply bind_ext. intros dj _. unfold in_window_bounds.
      destruct (decide (Z.of_nat sc <= Z.of_nat j + dj
                        < Z.of_nat sc + Z.of_nat (row_length content i - sc))) as [Hc|Hc].
      * replace (_ && _ && _ && _) with true; [done|].
        symmetry. repeat (apply andb_true_iff; split); lia.
      * replace (_ && _ && _ && _) with false; [done|].
        symmetry. apply not_true_iff_false. rewrite !andb_true_iff.
        rewrite !Z.leb_le, !Z.ltb_lt. lia.
    + transitivity (dj ← zrange (- h) h; @nil num).
      * apply bind_ext. intros dj _. unfold in_window_bounds.
        replace (_ && _ && _ && _) with false; [done|].
        symmetry. apply not_true_iff_false. rewrite !andb_true_iff.
        rewrite !Z.leb_le, !Z.ltb_lt. lia.
      * generalize (zrange (- h) h). induction l; [done|]. by csimpl.
  - apply bind_ext. intros ni _.
    destruct (decide (Z.abs (Z.of_nat ni - Z.of_nat i) <= h)).
    + apply bind_ext. intros nj _. repeat case_decide; tauto || done.
    + transitivity (nj ← seq sc (row_length content i - sc); @nil num).
      * generalize (seq sc (row_length content i - sc)). induction l; [done|]. by csimpl.
      * apply bind_ext. intros nj _. case_decide; tauto || done.
Qed.



Lemma window_sum_values content sr sc h i j :
  window_sum content sr sc h i j
  = (foldl add (of_Z 0) (window_values content sr sc h i j),
     length (window_values content sr sc h i j)).
Proof. by rewrite window_sum_collected, collected_window. Qed.

(** What the rule of the moving average does at a cell. *)
Lemma movingAverage_cell_spec h sr sc content i j :
  movingAverage_cell h sr sc content i j
  = match parseNumericValue (cell_at content i j) with
    | None => Returns None
    | Some _ =>
        match window_values content sr sc h i j with
        | [] => Returns None
        | vs => write_smoothed content i j (mean vs)
        end
    end.
Proof.
  unfold movingAverage_cell. destruct (parseNumericValue _); [|done].
  rewrite window_sum_values. unfold mean.
  by destruct (window_values content sr sc h i j).
Qed.



Lemma written_cell rule content sr sc out i j raw :
  grid_loop rule content sr sc = Returns out ->
  in_mask content sr sc i j ->
  cell_at content i j = Some raw ->
  cell_at out i j = Some (default raw (written rule content i j)).
Proof.
  intros (_ & _ & Hcell)%grid_loop_Returns Hin Hraw.
  by rewrite Hcell, bool_decide_eq_true_2, Hraw.
Qed.

Lemma toFixed_Returns x d text : toFixed x d = Returns text -> text = toFixed_digits x d.
Proof. unfold toFixed. destruct (_ <? _)%nat; congruence. Qed.

Lemma written_smoothed (rule : cell_rule) content i j raw x :
  cell_at content i j = Some raw ->
  rule content i j = write_smoothed content i j x ->
  (exists t, rule content i j = Returns t) ->
  written rule content i j = Some (toFixed_digits x (Nat.max (smoothing_decimals raw) 2)).
Proof.
  intros Hraw Hrule [t Ht]. unfold written. rewrite Ht.
  rewrite Hrule in Ht. unfold write_smoothed in Ht. rewrite Hraw in Ht. simpl in Ht.
  destruct (toFixed _ _) as [text| |] eqn:E; simpl in Ht; try discriminate.
  injection Ht as <-. by apply toFixed_Returns in E as ->.
Qed.



Lemma bind_nil {A B} (g : A -> list B) (l : list A) :
  (forall x, x ∈ l -> g x = []) -> (x ← l; g x) = [].
Proof.
  induction l as [|x l IH]; intros H; [done|]. csimpl.
  rewrite H by apply list_elem_of_here. apply IH.
  intros y Hy. apply H. by apply list_elem_of_further.
Qed.

Lemma window_values_rectangular content sr sc h i j :
  (forall ni, (ni < length content)%nat -> row_length content ni = row_length content i) ->
  window_values content sr sc h i j = window_values_claimed content sr sc h i j.
Proof.
  intros Hrect. unfold window_values, window_values_claimed.
  apply bind_ext. intros ni Hni%elem_of_seq. rewrite (Hrect ni) by lia. done.
Qed.

Lemma odd_window_even w : odd_window w = if Z.even w then w + 1 else w.
Proof.
  unfold odd_window. rewrite Zquot.Zrem_even.
  destruct (Z.even w) eqn:E; [done|].
  destruct w; simpl in *; done.
Qed.

(** C5 (amended).  [applyMovingAverage] adds 1 to an even window size, and
    then, at a cell [(i, j)] of the mask that parses as a number, takes the
    mean of the numeric cells of the mask within Chebyshev distance
    [floor(windowSize / 2)] whose column is below the length of row [i],
    the cell's own row; the cell is left as it is when that window is
    empty.  On a grid whose rows all have the length of row [i] this is
    the window of every numeric cell of the mask within that distance. *)
Theorem C5_moving_average_window content w r c i j raw v :
  in_mask content (start_of r) (start_of c) i j ->
  cell_at content i j = Some raw ->
  parseNumericValue (Some raw) = Some v ->
  let sr := start_of r in
  let sc := start_of c in
  let h := odd_window w / 2 in
  let vs := window_values content sr sc h i j in
  odd_window w = (if Z.even w then w + 1 else w)
  /\ movingAverage_cell h sr sc content i j
     = match vs with
       | [] => Returns None
       | _ => write_smoothed content i j (mean vs)
       end
  /\ (forall out,
        applyMovingAverage content w r c = Returns out ->
        cell_at out i j
        = Some match vs with
               | [] => raw
               | _ => toFixed_digits (mean vs) (Nat.max (smoothing_decimals raw) 2)
               end)
  /\ ((forall ni, (ni < length content)%nat ->
                  row_length content ni = row_length content i) ->
      vs = window_values_claimed content sr sc h i j).
Proof.
  intros Hin Hraw Hv sr sc h vs. subst sr sc h vs.
  set (vs := window_values _ _ _ _ _ _).
  assert (Hrule : movingAverage_cell (odd_window w / 2) (start_of r) (start_of c) content i j
                  = match vs with
                    | [] => Returns None
                    | _ => write_smoothed content i j (mean vs)
                    end).
  { rewrite movingAverage_cell_spec, Hraw, Hv. subst vs.
    by destruct (window_values _ _ _ _ _ _). }
  split; [apply odd_window_even|split; [done|split]].
  - intros out Hout. unfold applyMovingAverage in Hout.
    rewrite (written_cell _ _ _ _ _ _ _ raw Hout Hin Hraw). f_equal.
    apply grid_loop_Returns in Hout as (Hall & _).
    specialize (Hall i j Hin). revert Hrule Hall.
    destruct vs as [|x vs']; intros Hrule Hall.
    + unfold written. by rewrite Hrule.
    + by erewrite written_smoothed.
  - apply window_values_rectangular.
Qed.

Lemma window_values_negative content sr sc h i j :
  h < 0 -> window_values content sr sc h i j = [].
Proof.
  intros Hh. unfold window_values. apply bind_nil. intros ni _.
  apply bind_nil. intros nj _. rewrite decide_False; [done|lia].
Qed.


Lemma applyMovingAverage_negative content w r c :
  w < 0 -> applyMovingAverage content w r c = Returns content.
Proof.
  intros Hw. unfold applyMovingAverage. apply grid_loop_id. intros i j _.
  rewrite movingAverage_cell_spec. destruct (parseNumericValue _); [|done].
  rewrite window_values_negative; [done|].
  rewrite odd_window_even. destruct (Z.even w) eqn:E.
  - assert (w <> -1) by (intros ->; discriminate).
    apply Z.div_lt_upper_bound; lia.
  - apply Z.div_lt_upper_bound; lia.
Qed.

End MovingAverageFacts.

(** ** Markup and decimal places *)

Section StringFacts.
Import JSString.

Lemma split_not_nil c s : exists p ps, split c s = p :: ps.
Proof.
  induction s as [|a r [p [ps IH]]]; simpl; [eauto|].
  destruct (Ascii.eqb a c); [eauto|]. rewrite IH. eauto.
Qed.

Lemma segment_sep c k r : segment c (S k) (String c r) = segment c k r.
Proof. unfold segment. simpl. by rewrite Ascii.eqb_refl. Qed.

Lemma segment0_sep c r : segment c 0 (String c r) = EmptyString.
Proof. unfold segment. simpl. by rewrite Ascii.eqb_refl. Qed.

Lemma segment0_other c a r : a <> c -> segment c 0 (String a r) = String a (segment c 0 r).
Proof.
  intros Hne. unfold segment. simpl. rewrite (proj2 (Ascii.eqb_neq a c) Hne).
  by destruct (split_not_nil c r) as (p & ps & ->).
Qed.

Lemma segment_other c k a r : a <> c -> segment c (S k) (String a r) = segment c (S k) r.
Proof.
  intros Hne. unfold segment. simpl. rewrite (proj2 (Ascii.eqb_neq a c) Hne).
  by destruct (split_not_nil c r) as (p & ps & ->).
Qed.

Lemma count_strip_le c t s : (count_char c (strip_from t s) <= count_char c s)%nat.
Proof.
  revert t. induction s as [|a r IH]; intros t; simpl; [by destruct t|].
  destruct t.
  - destruct (Ascii.eqb a ">"); [specialize (IH false)|specialize (IH true)]; lia.
  - destruct (Ascii.eqb a "<" && includes ">" r); simpl.
    + specialize (IH true). lia.
    + specialize (IH false). lia.
Qed.

Lemma includes_segment0 c g s :
  includes g (segment c 0 s) = true -> includes g s = true.
Proof.
  induction s as [|a r IH]; [done|].
  destruct (Ascii.eqb_spec a c) as [->|Hne].
  - rewrite segment0_sep. done.
  - rewrite segment0_other by done. simpl. destruct (Ascii.eqb a g); auto.
Qed.

Lemma includes_count c s : includes c s = negb (count_char c s =? 0)%nat.
Proof.
  induction s as [|a r IH]; [done|]. simpl.
  destruct (Ascii.eqb a c); [done|]. by rewrite IH.
Qed.

(** A tag that closes, and loses no dot, closes before the first dot. *)
Lemma tag_closes_before_dot s :
  includes ">" s = true ->
  count_char "." (strip_from true s) = count_char "." s ->
  includes ">" (segment "." 0 s) = true.
Proof.
  induction s as [|a r IH]; [done|]. simpl. intros Hgt Hcount.
  destruct (Ascii.eqb_spec a ".") as [->|Hdot].
  - simpl in Hcount. pose proof (count_strip_le "." true r). lia.
  - rewrite segment0_other by done. simpl.
    destruct (Ascii.eqb a ">"); [done|]. simpl in Hcount. auto.
Qed.

Lemma strip_segment0 t s :
  count_char "." (strip_from t s) = count_char "." s ->
  strip_from t (segment "." 0 s) = segment "." 0 (strip_from t s).
Proof.
  revert t. induction s as [|a r IH]; intros t Hcount; [by destruct t|].
  destruct (Ascii.eqb_spec a ".") as [->|Hdot].
  - rewrite segment0_sep. destruct t; simpl in *.
    + pose proof (count_strip_le "." true r). lia.
    + by rewrite segment0_sep.
  - rewrite segment0_other by done. simpl in Hcount.
    rewrite (proj2 (Ascii.eqb_neq a ".") Hdot) in Hcount. simpl in Hcount.
    destruct t; simpl.
    + destruct (Ascii.eqb a ">"); simpl in Hcount; auto.
    + destruct (Ascii.eqb_spec a "<") as [->|Hlt]; simpl in *.
      * destruct (includes ">" r) eqn:Hgt.
        -- rewrite tag_closes_before_dot by done. auto.
        -- destruct (includes ">" (segment "." 0 r)) eqn:Hgt'.
           ++ apply includes_segment0 in Hgt'. congruence.
           ++ simpl in Hcount. rewrite segment0_other by done. f_equal. auto.
      * simpl in Hcount. rewrite (proj2 (Ascii.eqb_neq a ".") Hdot) in Hcount.
        rewrite segment0_other by done. f_equal. auto.
Qed.

Lemma strip_segment1 t s :
  count_char "." (strip_from t s) = count_char "." s ->
  strip_from false (segment "." 1 s) = segment "." 1 (strip_from t s).
Proof.
  revert t. induction s as [|a r IH]; intros t Hcount; [by destruct t|].
  destruct (Ascii.eqb_spec a ".") as [->|Hdot].
  - rewrite segment_sep. destruct t; simpl in *.
    + pose proof (count_strip_le "." true r). lia.
    + rewrite segment_sep. apply strip_segment0. lia.
  - rewrite segment_other by done. simpl in Hcount.
    rewrite (proj2 (Ascii.eqb_neq a ".") Hdot) in Hcount. simpl in Hcount.
    destruct t; simpl.
    + destruct (Ascii.eqb a ">"); simpl in Hcount; auto.
    + destruct (Ascii.eqb a "<" && includes ">" r); simpl in Hcount; [auto|].
      rewrite (proj2 (Ascii.eqb_neq a ".") Hdot) in Hcount.
      rewrite segment_other by done. auto.
Qed.

End StringFacts.

(** ** The smoothers: output format and parameters *)

Section SmoothingFacts.
Context {N : JSNumber}.

Lemma smoothing_decimals_plain raw :
  dots_outside_markup raw -> smoothing_decimals raw = decimalPlaces_between raw.
Proof.
  unfold dots_outside_markup, smoothing_decimals, decimalPlaces_between, JSString.stripTags.
  intros Hdots. rewrite !includes_count. rewrite Hdots.
  destruct (negb _); [|done].
  change (default EmptyString (JSString.split "." raw !! 1%nat))
    with (JSString.segment "." 1 raw).
  by rewrite (strip_segment1 false).
Qed.

Lemma smoothed_cell (rule : cell_rule) content sr sc out i j raw (x : option num) :
  grid_loop rule content sr sc = Returns out ->
  in_mask content sr sc i j ->
  cell_at content i j = Some raw ->
  rule content i j
  = match x with
    | Some y => write_smoothed content i j y
    | None => Returns None
    end ->
  cell_at out i j
  = Some match x with
         | Some y => toFixed_digits y (Nat.max (smoothing_decimals raw) 2)
         | None => raw
         end.
Proof.
  intros Hout Hin Hraw Hrule.
  rewrite (written_cell _ _ _ _ _ _ _ raw Hout Hin Hraw). f_equal.
  apply grid_loop_Returns in Hout as (Hall & _). specialize (Hall i j Hin).
  destruct x as [y|].
  - by erewrite written_smoothed.
  - unfold written. by rewrite Hrule.
Qed.

(** C4 (amended).  For a numeric cell of the mask whose dots all stand
    outside markup, each of the three smoothers leaves the cell as it is or
    writes its smoothed value with [max(d, 2)] decimals, where [d] is the
    length of the text between the first ['.'] and the next one (or the
    end) of the cell's text without markup, 0 when it has no ['.']. *)
Theorem C4_smoothed_text_decimals content r c i j raw v :
  in_mask content (start_of r) (start_of c) i j ->
  cell_at content i j = Some raw ->
  parseNumericValue (Some raw) = Some v ->
  dots_outside_markup raw ->
  let sr := start_of r in
  let sc := start_of c in
  let d := Nat.max (decimalPlaces_between raw) 2 in
  (forall w out,
     applyMovingAverage content w r c = Returns out ->
     cell_at out i j
     = Some match window_values content sr sc (odd_window w / 2) i j with
            | [] => raw
            | vs => toFixed_digits (mean vs) d
            end)
  /\ (forall sigma kernel h out,
        gaussian_kernel sigma = Returns (kernel, h) ->
        applyGaussianSmoothing content sigma r c = Returns out ->
        cell_at out i j
        = Some (let sums := kernel_sums kernel h content sr sc i j in
                if ltb (of_Z 0) sums.2 then toFixed_digits (div sums.1 sums.2) d
                else raw))
  /\ (forall out,
        applyBilinearInterpolation content r c = Returns out ->
        cell_at out i j
        = Some match bilinear_neighbors content sr sc i j with
               | [] => raw
               | ns => toFixed_digits
                         (div (add v (foldl add (of_Z 0) ns)) (of_nat (length ns + 1))) d
               end).
Proof.
  intros Hin Hraw Hv Hdots sr sc d. subst sr sc d.
  rewrite <-(smoothing_decimals_plain raw Hdots).
  split; [|split].
  - intros w out Hout. unfold applyMovingAverage in Hout.
    rewrite (smoothed_cell _ _ _ _ _ _ _ raw
               (match window_values content (start_of r) (start_of c) (odd_window w / 2) i j with
                | [] => None
                | vs => Some (mean vs)
                end) Hout Hin Hraw).
    + by destruct (window_values _ _ _ _ _ _).
    + rewrite movingAverage_cell_spec, Hraw, Hv.
      by destruct (window_values _ _ _ _ _ _).
  - intros sigma kernel h out Hk Hout. unfold applyGaussianSmoothing in Hout.
    rewrite Hk in Hout. simpl in Hout.
    rewrite (smoothed_cell _ _ _ _ _ _ _ raw
               (let sums := kernel_sums kernel h content (start_of r) (start_of c) i j in
                if ltb (of_Z 0) sums.2 then Some (div sums.1 sums.2) else None)
               Hout Hin Hraw).
    + simpl. by destruct (ltb _ _).
    + unfold gaussian_cell. rewrite Hraw, Hv.
      destruct (kernel_sums _ _ _ _ _ _ _) as [s ws]. simpl. by destruct (ltb _ _).
  - intros out Hout. unfold applyBilinearInterpolation in Hout.
    rewrite (smoothed_cell _ _ _ _ _ _ _ raw
               (match bilinear_neighbors content (start_of r) (start_of c) i j with
                | [] => None
                | ns => Some (div (add v (foldl add (of_Z 0) ns)) (of_nat (length ns + 1)))
                end) Hout Hin Hraw).
    + by destruct (bilinear_neighbors _ _ _ _ _).
    + unfold bilinear_cell. rewrite Hraw, Hv.
      by destruct (bilinear_neighbors _ _ _ _ _).
Qed.

(** *** Parameters *)






End SmoothingFacts.

(** ** The blank filler, and completion of the four operations *)

Section FillFacts.
Context {N : JSNumber}.

Ltac in_directions :=
  unfold directions; repeat first [apply list_elem_of_here | apply list_elem_of_further].

Lemma findNearest_loop_step fuel content sr sc row col dRow dCol r c :
  findNearest_loop (S fuel) content sr sc row col dRow dCol r c
  = if in_scan_bounds content sr sc r c then
      match scan_value content r c with
      | Some val =>
          Some (Some (Nearest val (Z.abs (r - row) + Z.abs (c - col))
                        (getDecimalPlaces
                           (default EmptyString
                              (cell_at content (Z.to_nat r) (Z.to_nat c))))))
      | None => findNearest_loop fuel content sr sc row col dRow dCol (r + dRow) (c + dCol)
      end
    else Some None.
Proof.
  simpl. unfold scan_value. destruct (in_scan_bounds _ _ _ _ _); [|done].
  destruct (negb (isEmpty _)); [|done]. by destruct (parseNumericValue _).
Qed.

Lemma directions_unit dRow dCol :
  (dRow, dCol) ∈ directions -> Z.abs dRow + Z.abs dCol = 1.
Proof.
  unfold directions. rewrite !elem_of_cons, elem_of_nil.
  intros [[= -> ->]|[[= -> ->]|[[= -> ->]|[[= -> ->]|[]]]]]; done.
Qed.

(** A scan that returns has stopped at the first stop. *)
Lemma findNearest_loop_stop fuel content sr sc row col dRow dCol k found :
  Z.abs dRow + Z.abs dCol = 1 ->
  1 <= k ->
  (forall k', 1 <= k' < k ->
     in_scan_bounds content sr sc (row + k' * dRow) (col + k' * dCol) = true
     /\ scan_value content (row + k' * dRow) (col + k' * dCol) = None) ->
  findNearest_loop fuel content sr sc row col dRow dCol (row + k * dRow) (col + k * dCol)
  = Some found ->
  exists k2, first_stop content sr sc row col dRow dCol k2 found.
Proof.
  intros Hunit. revert k. induction fuel as [|fuel IH]; intros k Hk Hbefore Hloop; [done|].
  rewrite findNearest_loop_step in Hloop.
  destruct (in_scan_bounds _ _ _ _ _) eqn:Hb.
  - destruct (scan_value _ _ _) as [val|] eqn:Hs.
    + injection Hloop as <-. exists k. split; [done|split; [done|]]. simpl.
      split; [done|split; [done|split; [|done]]].
      assert (dRow = -1 /\ dCol = 0 \/ dRow = 1 /\ dCol = 0
              \/ dRow = 0 /\ dCol = -1 \/ dRow = 0 /\ dCol = 1)
        as [[-> ->]|[[-> ->]|[[-> ->]|[-> ->]]]] by lia; lia.
    + apply (IH (k + 1)); [lia| |].
      * intros k' Hk'. destruct (decide (k' = k)) as [->|]; [done|]. apply Hbefore. lia.
      * rewrite <-Hloop. f_equal; lia.
  - injection Hloop as <-. exists k. split; [done|split; [done|]]. done.
Qed.

Lemma findNearest_loop_fuel fuel content sr sc row col dRow dCol r c :
  (dRow, dCol) ∈ directions ->
  steps_left content sr sc dRow dCol r c < Z.of_nat fuel ->
  exists found,
    findNearest_loop fuel content sr sc row col dRow dCol r c = Some found.
Proof.
  intros Hdir. revert r c. induction fuel as [|fuel IH]; intros r c Hfuel.
  - unfold steps_left in Hfuel. destruct (in_scan_bounds _ _ _ _ _) eqn:Hb; [|lia].
    unfold in_scan_bounds in Hb. rewrite !andb_true_iff, !Z.leb_le, !Z.ltb_lt in Hb.
    revert Hdir Hfuel. unfold directions. rewrite !elem_of_cons, elem_of_nil.
    intros [[= -> ->]|[[= -> ->]|[[= -> ->]|[[= -> ->]|[]]]]]; simpl; lia.
  - rewrite findNearest_loop_step.
    destruct (in_scan_bounds content sr sc r c) eqn:Hb; [|eauto].
    destruct (scan_value _ _ _); [eauto|].
    apply IH. unfold steps_left in *. rewrite Hb in Hfuel.
    unfold in_scan_bounds in Hb. rewrite !andb_true_iff, !Z.leb_le, !Z.ltb_lt in Hb.
    destruct (in_scan_bounds content sr sc (r + dRow) (c + dCol)) eqn:Hb'.
    + revert Hdir Hfuel. unfold directions. rewrite !elem_of_cons, elem_of_nil.
      intros [[= -> ->]|[[= -> ->]|[[= -> ->]|[[= -> ->]|[]]]]]; simpl; lia.
    + revert Hdir Hfuel. unfold directions. rewrite !elem_of_cons, elem_of_nil.
      intros [[= -> ->]|[[= -> ->]|[[= -> ->]|[[= -> ->]|[]]]]]; simpl; lia.
Qed.

Lemma steps_left_bound content sr sc dRow dCol r c :
  (dRow, dCol) ∈ directions ->
  steps_left content sr sc dRow dCol r c
  < Z.of_nat (S (length content + row_length content 0)).
Proof.
  intros Hdir. unfold steps_left.
  destruct (in_scan_bounds _ _ _ _ _) eqn:Hb; [|lia].
  unfold in_scan_bounds in Hb. rewrite !andb_true_iff, !Z.leb_le, !Z.ltb_lt in Hb.
  revert Hdir. unfold directions. rewrite !elem_of_cons, elem_of_nil.
  intros [[= -> ->]|[[= -> ->]|[[= -> ->]|[[= -> ->]|[]]]]]; simpl; lia.
Qed.

Lemma findNearest_first_stop content sr sc row col dRow dCol :
  (dRow, dCol) ∈ directions ->
  exists found k,
    findNearest content sr sc row col dRow dCol = Returns found
    /\ first_stop content sr sc row col dRow dCol k found.
Proof.
  intros Hdir. unfold findNearest.
  destruct (findNearest_loop_fuel (S (length content + row_length content 0))
              content sr sc row col dRow dCol (row + dRow) (col + dCol) Hdir)
    as [found Hfound]; [by apply steps_left_bound|].
  rewrite Hfound.
  destruct (findNearest_loop_stop (S (length content + row_length content 0))
              content sr sc row col dRow dCol 1 found) as [k Hk].
  - by apply directions_unit.
  - lia.
  - intros k' Hk'. lia.
  - rewrite <-Hfound. f_equal; lia.
  - eauto.
Qed.

Lemma autoFill_cell_nonblank sr sc content i j :
  isEmpty (cell_at content i j) = false ->
  autoFill_cell sr sc content i j = Returns None.
Proof. intros H. unfold autoFill_cell. by rewrite H. Qed.

Lemma autoFill_cell_nothing_found sr sc content i j :
  (forall dRow dCol, (dRow, dCol) ∈ directions ->
     findNearest content sr sc (Z.of_nat i) (Z.of_nat j) dRow dCol = Returns None) ->
  autoFill_cell sr sc content i j = Returns None.
Proof.
  intros H. unfold autoFill_cell. destruct (negb (isEmpty _)); [done|].
  rewrite !H by in_directions. done.
Qed.


Lemma autoFillBlanks_fixed once r c :
  (forall i j,
     in_mask once (start_of r) (start_of c) i j ->
     isEmpty (cell_at once i j) = true ->
     forall dRow dCol, (dRow, dCol) ∈ directions ->
       findNearest once (start_of r) (start_of c) (Z.of_nat i) (Z.of_nat j) dRow dCol
       = Returns None) ->
  autoFillBlanks once r c = Returns once.
Proof.
  intros H. unfold autoFillBlanks. apply grid_loop_id. intros i j Hin.
  destruct (isEmpty (cell_at once i j)) eqn:E.
  - apply autoFill_cell_nothing_found. by apply H.
  - by apply autoFill_cell_nonblank.
Qed.


(** *** Completion *)







(** C1 (amended).  In each of the four directions [findNearest] returns,
    and its scan stops at the first position that is outside the mask or
    holds a cell that is not blank and parses as a number.  Every cell
    before it is inside the mask and is blank or does not parse: a label is
    passed over like a blank cell, it does not block the direction.  A
    number that is found is recorded with its value, the number of steps
    taken as distance, and its decimal places. *)
Theorem C1_scan_stops_at_first_number content sr sc row col dRow dCol :
  (dRow, dCol) ∈ directions ->
  exists found k,
    findNearest content sr sc row col dRow dCol = Returns found
    /\ first_stop content sr sc row col dRow dCol k found.
Proof. apply findNearest_first_stop. Qed.






End FillFacts.

(** ** Rows on the heap *)

Section MemoryFacts.
Context {N : JSNumber}.

Lemma run_rule_of op content r c :
  run op content r c
  = (rule ← rule_of op r c; grid_loop rule content (start_of r) (start_of c)).
Proof.
  destruct op as [w|sigma| |]; try done.
  simpl. unfold applyGaussianSmoothing.
  destruct (gaussian_kernel sigma) as [[kernel h]| |]; done.
Qed.

Lemma deref_lookup (h : heap) rows i :
  deref h rows !! i = (fun l => default [] (h !! l)) <$> rows !! i.
Proof. unfold deref. apply list_lookup_fmap. Qed.

Lemma deref_ext (h1 h2 : heap) rows :
  (forall l, l ∈ rows -> h1 !! l = h2 !! l) -> deref h1 rows = deref h2 rows.
Proof.
  intros H. unfold deref. apply list_fmap_ext. intros i l Hl.
  rewrite H; [done|]. by eapply list_elem_of_lookup_2.
Qed.

Lemma invariant_content h content result hc :
  loop_invariant h content result hc -> deref hc content = deref h content.
Proof.
  intros [Halloc Hframe Hfresh _]. apply deref_ext. intros l Hl.
  apply Hframe. intros Hres. destruct (Hfresh l Hres) as [Hnone _].
  destruct (Halloc l Hl) as [row Hrow]. congruence.
Qed.

Lemma copy_rows_gen rows (h1 h0 : heap) result :
  (forall l, l ∈ rows -> is_Some (h1 !! l)) ->
  copy_rows h1 rows = (h0, result) ->
  (forall l, l ∉ result -> h0 !! l = h1 !! l)
  /\ (forall l, l ∈ result -> h1 !! l = None /\ is_Some (h0 !! l))
  /\ NoDup result
  /\ deref h0 result = deref h1 rows.
Proof.
  revert h1 h0 result.
  induction rows as [|a rows IH]; intros h1 h0 result Halloc Hcopy; simpl in Hcopy.
  - injection Hcopy as <- <-. split; [done|]. split; [|split; [constructor|done]].
    intros l Hl. by apply elem_of_nil in Hl.
  - destruct (copy_rows _ rows) as [h' ls] eqn:Hrec. injection Hcopy as <- <-.
    set (a' := fresh (dom h1)) in *.
    assert (Ha' : h1 !! a' = None) by apply not_elem_of_dom, is_fresh.
    apply IH in Hrec as (Hframe & Hfresh & Hnodup & Hderef).
    2:{ intros l Hl. destruct (decide (a' = l)) as [<-|Hne].
        - rewrite lookup_insert_eq. eauto.
        - rewrite lookup_insert_ne by done. apply Halloc. by apply list_elem_of_further. }
    assert (Hnotin : a' ∉ ls).
    { intros Hin. destruct (Hfresh a' Hin) as [Hnone _].
      by rewrite lookup_insert_eq in Hnone. }
    split; [|split; [|split]].
    + intros l Hl. rewrite not_elem_of_cons in Hl. destruct Hl as [Hne Hl].
      rewrite Hframe by done. by rewrite lookup_insert_ne.
    + intros l [->|Hin]%elem_of_cons.
      * split; [done|]. rewrite Hframe by done. rewrite lookup_insert_eq. eauto.
      * destruct (Hfresh l Hin) as [Hnone Hsome]. split; [|done].
        destruct (decide (a' = l)) as [<-|Hne]; [done|].
        by rewrite lookup_insert_ne in Hnone.
    + by constructor.
    + unfold deref in *. csimpl. f_equal.
      * rewrite Hframe by done. by rewrite lookup_insert_eq.
      * rewrite Hderef. apply list_fmap_ext. intros i l Hl.
        destruct (decide (a' = l)) as [<-|Hne]; [|by rewrite lookup_insert_ne].
        destruct (Halloc a') as [row Hrow]; [|congruence].
        apply list_elem_of_further. by eapply list_elem_of_lookup_2.
Qed.

Lemma copy_rows_spec (h : heap) content h0 result :
  (forall l, l ∈ content -> is_Some (h !! l)) ->
  copy_rows h content = (h0, result) ->
  loop_invariant h content result h0 /\ deref h0 result = deref h content.
Proof.
  intros Halloc Hcopy.
  destruct (copy_rows_gen _ _ _ _ Halloc Hcopy) as (Hframe & Hfresh & Hnodup & Hderef).
  split; [by constructor|done].
Qed.

Lemma deref_store_cell (hc : heap) result i j t :
  NoDup result ->
  (forall l, l ∈ result -> is_Some (hc !! l)) ->
  deref (store_cell result i j t hc) result = set_cell (deref hc result) i j t.
Proof.
  intros Hnodup Hsome. unfold store_cell, set_cell.
  destruct (result !! i) as [l|] eqn:Hl.
  - apply list_eq. intros k. rewrite deref_lookup.
    destruct (decide (k = i)) as [->|Hne].
    + rewrite list_lookup_alter_eq, deref_lookup, Hl. simpl.
      rewrite lookup_alter_eq. destruct (Hsome l) as [row ->]; [|done].
      by eapply list_elem_of_lookup_2.
    + rewrite list_lookup_alter_ne by done. rewrite deref_lookup.
      destruct (result !! k) as [l'|] eqn:Hl'; [|done]. simpl.
      rewrite lookup_alter_ne; [done|]. intros <-.
      apply Hne. by eapply NoDup_lookup.
  - apply list_eq. intros k. destruct (decide (i = k)) as [<-|Hne].
    + by rewrite list_lookup_alter_eq, deref_lookup, Hl.
    + by rewrite list_lookup_alter_ne.
Qed.

Lemma invariant_store h content result hc i j t :
  loop_invariant h content result hc ->
  loop_invariant h content result (store_cell result i j t hc).
Proof.
  intros [Halloc Hframe Hfresh Hnodup]. unfold store_cell.
  destruct (result !! i) as [l|] eqn:Hl; [|by constructor].
  assert (l ∈ result) by by eapply list_elem_of_lookup_2.
  constructor; [done| | |done].
  - intros l' Hl'. rewrite lookup_alter_ne; [by apply Hframe|]. by intros <-.
  - intros l' Hl'. destruct (Hfresh l' Hl') as [Hnone [row Hrow]]. split; [done|].
    destruct (decide (l = l')) as [<-|Hne].
    + rewrite lookup_alter_eq, Hrow. eauto.
    + rewrite lookup_alter_ne by done. eauto.
Qed.

Lemma for_each_cons {I S : Type} (i : I) (l : list I) (body : I -> S -> outcome S) s :
  for_each (i :: l) body s = (s' ← body i s; for_each l body s').
Proof. done. Qed.

Lemma write_cell_mem_step rule content result i j hc :
  write_cell_mem rule content result (i, j) hc
  = match rule (deref hc content) i j with
    | Returns t =>
        Returns (match t with Some text => store_cell result i j text hc | None => hc end)
    | Throws e => Throws e
    | Diverges => Diverges
    end.
Proof.
  unfold write_cell_mem. cbn [fst snd]. by destruct (rule (deref hc content) i j).
Qed.

(** The loops on the heap do, row object by row object, what the loops
    on grid values do. *)
Lemma visit_simulation rule h content result order hc :
  loop_invariant h content result hc ->
  match visit rule content result order hc with
  | Returns hc' =>
      loop_invariant h content result hc'
      /\ for_each order (pure_body rule (deref h content)) (deref hc result)
         = Returns (deref hc' result)
  | Throws e =>
      for_each order (pure_body rule (deref h content)) (deref hc result) = Throws e
  | Diverges =>
      for_each order (pure_body rule (deref h content)) (deref hc result) = Diverges
  end.
Proof.
  revert hc. induction order as [|[i j] order IH]; intros hc Hinv; [done|].
  unfold visit in *. rewrite !for_each_cons, pure_body_step, write_cell_mem_step.
  rewrite (invariant_content _ _ _ _ Hinv).
  destruct (rule (deref h content) i j) as [t| |]; [|done..].
  change (Returns ?x ≫= ?f) with (f x). cbv beta.
  destruct t as [text|].
  - rewrite <-deref_store_cell;
      [|by destruct Hinv|intros l Hl; by apply (inv_fresh _ _ _ _ Hinv)].
    apply IH. by apply invariant_store.
  - by apply IH.
Qed.


Lemma visit_app rule content result o1 o2 hc :
  visit rule content result (o1 ++ o2) hc
  = (hc' ← visit rule content result o1 hc; visit rule content result o2 hc').
Proof. apply for_each_app. Qed.

Lemma for_each_fmap {I J S : Type} (f : I -> J) (l : list I) (body : J -> S -> outcome S) s :
  for_each (f <$> l) body s = for_each l (fun i => body (f i)) s.
Proof.
  revert s. induction l as [|i l IH]; intros s; [done|].
  csimpl. destruct (body (f i) s); simpl; auto.
Qed.

(** The nested loops, which read the row lengths from the heap, visit
    the cells of the grid the call started with. *)
Lemma nested_loops_visit rule h content result sc rows hc :
  loop_invariant h content result hc ->
  for_each rows
    (fun i h1 =>
       for_each (seq sc (row_length (deref h1 content) i - sc))
         (fun j => write_cell_mem rule content result (i, j)) h1) hc
  = visit rule content result
      (i ← rows; pair i <$> seq sc (row_length (deref h content) i - sc)) hc.
Proof.
  revert hc. induction rows as [|i rows IH]; intros hc Hinv; [done|].
  rewrite for_each_cons. csimpl. rewrite visit_app.
  rewrite (invariant_content _ _ _ _ Hinv).
  assert (Hrow : for_each (seq sc (row_length (deref h content) i - sc))
                   (fun j => write_cell_mem rule content result (i, j)) hc
                 = visit rule content result
                     (pair i <$> seq sc (row_length (deref h content) i - sc)) hc).
  { unfold visit. by rewrite for_each_fmap. }
  rewrite Hrow.
  pose proof (visit_simulation rule h content result
                (pair i <$> seq sc (row_length (deref h content) i - sc)) hc Hinv) as Hsim.
  destruct (visit rule content result (pair i <$> _) hc) as [hc'| |]; [|done..].
  destruct Hsim as [Hinv' _]. by apply IH.
Qed.

Lemma grid_loop_mem_cells rule h content sr sc :
  (forall l, l ∈ content -> is_Some (h !! l)) ->
  grid_loop_mem rule content sr sc h
  = grid_loop_mem_in (cells (deref h content) sr sc) rule content h.
Proof.
  intros Halloc. unfold grid_loop_mem, grid_loop_mem_in.
  destruct (copy_rows h content) as [h0 result] eqn:Hcopy.
  destruct (copy_rows_spec _ _ _ _ Halloc Hcopy) as [Hinv _].
  rewrite (nested_loops_visit rule h content result sc _ h0 Hinv).
  unfold cells, deref. by rewrite length_fmap.
Qed.

(** The order of the visits is immaterial on grid values. *)
Lemma for_each_pure_order rule content o1 o2 res out :
  (forall ij, ij ∈ o1 <-> ij ∈ o2) ->
  for_each o1 (pure_body rule content) res = Returns out ->
  for_each o2 (pure_body rule content) res = Returns out.
Proof.
  intros Hsame H1.
  pose proof (for_each_pure_Returns _ _ _ _ _ H1) as (Hall & Hlen & Hcell).
  destruct (for_each_pure_total rule content o2 res) as [out2 H2].
  { intros ij Hin. apply Hall. by apply Hsame. }
  rewrite H2. f_equal.
  apply for_each_pure_Returns in H2 as (_ & Hlen2 & Hcell2).
  apply grid_ext; [congruence|]. intros i j. rewrite Hcell, Hcell2.
  destruct (decide ((i, j) ∈ o1)) as [Hin|Hin].
  - rewrite (bool_decide_eq_true_2 ((i, j) ∈ o1)) by done.
    rewrite (bool_decide_eq_true_2 ((i, j) ∈ o2)) by (by apply Hsame). done.
  - rewrite (bool_decide_eq_false_2 ((i, j) ∈ o1)) by done.
    rewrite (bool_decide_eq_false_2 ((i, j) ∈ o2)) by (by rewrite <-Hsame). done.
Qed.

(** Two heaps that satisfy the invariant and hold the same result grid
    are the same heap. *)
Lemma invariant_heap_eq h content result (h1 h2 : heap) :
  loop_invariant h content result h1 ->
  loop_invariant h content result h2 ->
  deref h1 result = deref h2 result ->
  h1 = h2.
Proof.
  intros Hinv1 Hinv2 Hderef. apply map_eq. intros l.
  destruct (decide (l ∈ result)) as [Hin|Hin].
  - destruct (inv_fresh _ _ _ _ Hinv1 l Hin) as [_ [r1 Hr1]].
    destruct (inv_fresh _ _ _ _ Hinv2 l Hin) as [_ [r2 Hr2]].
    apply list_elem_of_lookup in Hin as [i Hi].
    assert (Hrow : deref h1 result !! i = deref h2 result !! i) by by rewrite Hderef.
    rewrite !deref_lookup, Hi in Hrow. simpl in Hrow.
    rewrite Hr1, Hr2 in Hrow. simpl in Hrow. congruence.
  - by rewrite (inv_frame _ _ _ _ Hinv1), (inv_frame _ _ _ _ Hinv2).
Qed.

Lemma grid_loop_mem_in_spec rule h content order :
  (forall l, l ∈ content -> is_Some (h !! l)) ->
  match grid_loop_mem_in order rule content h with
  | Returns (h', result) =>
      loop_invariant h content result h'
      /\ (exists h0, copy_rows h content = (h0, result))
      /\ for_each order (pure_body rule (deref h content)) (deref h content)
         = Returns (deref h' result)
  | Throws e =>
      for_each order (pure_body rule (deref h content)) (deref h content) = Throws e
  | Diverges =>
      for_each order (pure_body rule (deref h content)) (deref h content) = Diverges
  end.
Proof.
  intros Halloc. unfold grid_loop_mem_in.
  destruct (copy_rows h content) as [h0 result] eqn:Hcopy.
  destruct (copy_rows_spec _ _ _ _ Halloc Hcopy) as [Hinv Hderef].
  pose proof (visit_simulation rule h content result order h0 Hinv) as Hsim.
  rewrite Hderef in Hsim.
  destruct (visit rule content result order h0) as [h'| |]; simpl; [|done..].
  destruct Hsim as [Hinv' Hpure]. eauto.
Qed.

Lemma grid_loop_mem_in_order rule h content o1 o2 h' result :
  (forall l, l ∈ content -> is_Some (h !! l)) ->
  (forall ij, ij ∈ o1 <-> ij ∈ o2) ->
  grid_loop_mem_in o1 rule content h = Returns (h', result) ->
  grid_loop_mem_in o2 rule content h = Returns (h', result).
Proof.
  intros Halloc Hsame H1.
  pose proof (grid_loop_mem_in_spec rule h content o1 Halloc) as S1.
  pose proof (grid_loop_mem_in_spec rule h content o2 Halloc) as S2.
  rewrite H1 in S1. destruct S1 as (Hinv1 & [h0 Hcopy] & Hpure1).
  pose proof (for_each_pure_order _ _ _ _ _ _ Hsame Hpure1) as Hpure2.
  destruct (grid_loop_mem_in o2 rule content h) as [[h2 result2]| |]; [|congruence..].
  destruct S2 as (Hinv2 & [h0' Hcopy'] & Hpure2').
  assert (result2 = result) as -> by congruence.
  f_equal. f_equal. apply (invariant_heap_eq h content result); [done..|congruence].
Qed.


(** C8.  Run on a heap in which the rows of [content] exist, each of the
    four operations leaves every object of that heap as it was, the rows of
    [content] included; the rows of its result are distinct objects the
    heap did not have; the result is what the operation computes on grid
    values from the grid [content] denoted at the call; and visiting the
    cells of the mask in any other order, or more than once, ends in the
    same heap and result.  A call that throws or never returns does so on
    grid values as well. *)
Theorem C8_input_untouched_output_fresh op (h : heap) (content : list nat) r c :
  (forall l, l ∈ content -> is_Some (h !! l)) ->
  match run_mem op h content r c with
  | Returns (h', result) =>
      (forall l, is_Some (h !! l) -> h' !! l = h !! l)
      /\ deref h' content = deref h content
      /\ (forall l, l ∈ result -> h !! l = None)
      /\ NoDup result
      /\ run op (deref h content) r c = Returns (deref h' result)
      /\ (forall order,
            (forall ij, ij ∈ order
                        <-> ij ∈ cells (deref h content) (start_of r) (start_of c)) ->
            run_mem_in order op h content r c = Returns (h', result))
  | Throws e => run op (deref h content) r c = Throws e
  | Diverges => run op (deref h content) r c = Diverges
  end.
Proof.
  intros Halloc. unfold run_mem, run_mem_in. rewrite run_rule_of.
  destruct (rule_of op r c) as [rule| |]; [|done..].
  change (Returns rule ≫= ?f) with (f rule). cbv beta.
  rewrite grid_loop_mem_cells by done. rewrite grid_loop_cells.
  pose proof (grid_loop_mem_in_spec rule h content
                (cells (deref h content) (start_of r) (start_of c)) Halloc) as Hspec.
  destruct (grid_loop_mem_in _ rule content h) as [[h' result]| |] eqn:Hrun; [|done..].
  destruct Hspec as (Hinv & _ & Hpure).
  split; [|split; [|split; [|split; [|split]]]].
  - intros l Hl. apply (inv_frame _ _ _ _ Hinv). intros Hin.
    destruct (inv_fresh _ _ _ _ Hinv l Hin) as [Hnone _].
    rewrite Hnone in Hl. by destruct Hl.
  - by eapply invariant_content.
  - intros l Hl. by destruct (inv_fresh _ _ _ _ Hinv l Hl).
  - by destruct Hinv.
  - done.
  - intros order Hsame.
    apply (grid_loop_mem_in_order rule h content
             (cells (deref h content) (start_of r) (start_of c)) order); [done| |done].
    intros ij. by rewrite Hsame.
Qed.

End MemoryFacts.

(** ** Gradient colours over exact arithmetic *)

Module IdealFacts.
Import Palette.
Local Abbreviation Finite := Ideal.Finite.
Local Abbreviation finite := Ideal.finite.

Lemma Qle_bool_false x y : Qle_bool x y = false <-> (y < x)%Q.
Proof.
  split.
  - intros H. apply Qnot_le_lt. intros Hle. apply Qle_bool_iff in Hle. congruence.
  - intros H. apply not_true_iff_false. intros Hle%Qle_bool_iff. 
    apply (Qlt_irrefl x). eapply Qle_lt_trans; eauto.
Qed.

Lemma ltb_Finite x y : Ideal.ltb (Finite x) (Finite y) = true <-> (x < y)%Q.
Proof.
  simpl. rewrite negb_true_iff. apply Qle_bool_false.
Qed.

Lemma leb_Finite x y : Ideal.leb (Finite x) (Finite y) = true <-> (x <= y)%Q.
Proof.
  unfold Ideal.leb. rewrite orb_true_iff, ltb_Finite. simpl. rewrite Qeq_bool_iff.
  split.
  - intros [H|H]; [by apply Qlt_le_weak|]. rewrite H. apply Qle_refl.
  - intros H. destruct (Qlt_le_dec x y) as [Hlt|Hge]; [by left|right].
    by apply Qle_antisym.
Qed.

(** The clamp of [getColorForValue] on a finite value. *)
Lemma clamp_Finite (v : Q) :
  exists v', Ideal.Math_max (finite 0) (Ideal.Math_min (finite 1) (Finite v)) = Finite v'
             /\ (0 <= v' <= 1)%Q
             /\ ((0 <= v <= 1)%Q -> (v' == v)%Q).
Proof.
  unfold Ideal.finite. change (Qred 0) with 0%Q. change (Qred 1) with 1%Q.
  unfold Ideal.Math_min. destruct (Ideal.ltb (Finite v) (Finite 1)) eqn:H1;
    unfold Ideal.Math_max.
  - destruct (Ideal.ltb (Finite 0) (Finite v)) eqn:H0.
    + apply ltb_Finite in H0, H1. exists v. split; [done|]. split; [lra|done].
    + exists 0%Q. split; [done|]. split; [lra|].
      intros Hv. apply not_true_iff_false in H0. rewrite ltb_Finite in H0. lra.
  - exists 1%Q. split; [done|]. split; [lra|].
    intros Hv. apply not_true_iff_false in H1. rewrite ltb_Finite in H1. lra.
Qed.

Lemma interpolateChannel_Finite (c1 c2 : Z) (f : Q) :
  interpolateChannel c1 c2 (Finite f)
  = Int (Qfloor (Qred (Qred (inject_Z c1)
                       + Qred (Qred (Qred (inject_Z c2) + Qred (- Qred (inject_Z c1))) * f))
                 + (1 # 2))).
Proof. reflexivity. Qed.



Lemma valid_stop_spec s :
  valid_stop s = true ->
  exists q r g b, stop_value s = Finite q /\ stop_color s = (r, g, b)
                  /\ (0 <= q <= 1)%Q /\ 0 <= r <= 255 /\ 0 <= g <= 255 /\ 0 <= b <= 255.
Proof.
  unfold valid_stop. destruct s as [val [[r g] b]]. simpl.
  destruct val as [| |q]; try done. rewrite !andb_true_iff.
  rewrite !Z.leb_le. intros [[H0%Qle_bool_iff H1%Qle_bool_iff] H].
  exists q, r, g, b. repeat split; try done; lia.
Qed.




Lemma built_in_valid scheme :
  scheme ∈ @COLOR_SCHEMES Ideal.number -> valid_scheme scheme = true.
Proof.
  unfold COLOR_SCHEMES. rewrite !elem_of_cons, elem_of_nil.
  intros [->|[->|[->|[->|[]]]]]; by vm_compute.
Qed.



(** *** Reading the channels back from the colour string *)





(** *** Normalisation and text colour *)






End IdealFacts.

(** ** Concrete tables *)

Module Tables.

Abbreviation Finite := Ideal.Finite.

(** A row whose middle cell is a label. *)
Definition labelled_row : grid := [[""; "rpm"; "5"]].

Lemma C1_counterexample : ~ label_blocks_claim labelled_row 0 0 0 0 0 1.
Proof.
  intros H. specialize (H 1).
  assert (E : findNearest labelled_row 0 0 0 0 0 1 = Returns None).
  { apply H; try done. intros k' Hk'. lia. }
  apply (f_equal (fun o => match o with Returns None => true | _ => false end)) in E.
  vm_compute in E. discriminate.
Qed.

Lemma C1_witness :
  (0, 1) ∈ directions
  /\ exists found k,
       findNearest labelled_row 0 0 0 0 0 1 = Returns found
       /\ first_stop labelled_row 0 0 0 0 0 1 k found.
Proof.
  assert (Hdir : (0, 1) ∈ directions)
    by (unfold directions; repeat first [apply list_elem_of_here | apply list_elem_of_further]).
  split; [exact Hdir|].
  exact (C1_scan_stops_at_first_number labelled_row 0 0 0 0 0 1 Hdir).
Defined.






Lemma C4_counterexample : ~ smoothing_format_claim [["1.5.25"]] 3 false false.
Proof.
  intros H.
  specialize (H [["1.50"]] eq_refl 0%nat 0%nat "1.5.25" (Finite (3 # 2))).
  assert (in_mask [["1.5.25"]] (start_of false) (start_of false) 0 0) as Hin
    by (vm_compute; lia).
  specialize (H Hin eq_refl eq_refl). vm_compute in H.
  specialize (H ltac:(discriminate)). discriminate.
Qed.

Definition small_table : grid := [["1.5"; "2"]; ["3"; "4"]].

Lemma small_table_cell :
  in_mask small_table (start_of false) (start_of false) 0 0
  /\ cell_at small_table 0 0 = Some "1.5"
  /\ parseNumericValue (Some "1.5") = Some (Finite (3 # 2))
  /\ dots_outside_markup "1.5".
Proof. split; [vm_compute; lia|]. split; [reflexivity|]. split; reflexivity. Qed.

Lemma C4_witness :
  (forall w out,
     applyMovingAverage small_table w false false = Returns out ->
     cell_at out 0 0
     = Some match window_values small_table 0 0 (odd_window w / 2) 0 0 with
            | [] => "1.5"
            | vs => toFixed_digits (mean vs) 2
            end)
  /\ (forall sigma kernel h out,
        gaussian_kernel sigma = Returns (kernel, h) ->
        applyGaussianSmoothing small_table sigma false false = Returns out ->
        cell_at out 0 0
        = Some (let sums := kernel_sums kernel h small_table 0 0 0 0 in
                if ltb (of_Z 0) sums.2 then toFixed_digits (div sums.1 sums.2) 2
                else "1.5"))
  /\ (forall out,
        applyBilinearInterpolation small_table false false = Returns out ->
        cell_at out 0 0
        = Some match bilinear_neighbors small_table 0 0 0 0 with
               | [] => "1.5"
               | ns => toFixed_digits
                         (div (add (Finite (3 # 2)) (foldl add (of_Z 0) ns))
                              (of_nat (length ns + 1))) 2
               end).
Proof.
  destruct small_table_cell as (Hin & Hraw & Hv & Hdots).
  exact (C4_smoothed_text_decimals small_table false false 0 0 "1.5" (Finite (3 # 2))
           Hin Hraw Hv Hdots).
Defined.

(** A ragged table: the second row is longer than the first. *)
Definition ragged_table : grid := [["1"]; ["2"; "9"]].

Lemma C5_counterexample : ~ moving_average_claim ragged_table 3 false false.
Proof.
  intros H.
  specialize (H [["1.50"]; ["4.00"; "4.00"]] eq_refl 0%nat 0%nat "1" (Finite 1)).
  assert (in_mask ragged_table (start_of false) (start_of false) 0 0) as Hin
    by (vm_compute; lia).
  specialize (H Hin eq_refl eq_refl). vm_compute in H. discriminate.
Qed.

Lemma C5_witness :
  let vs := window_values small_table 0 0 (odd_window 2 / 2) 0 0 in
  odd_window 2 = (if Z.even 2 then 2 + 1 else 2)
  /\ movingAverage_cell (odd_window 2 / 2) 0 0 small_table 0%nat 0%nat
     = match vs with
       | [] => Returns None
       | _ => write_smoothed small_table 0 0 (mean vs)
       end
  /\ (forall out,
        applyMovingAverage small_table 2 false false = Returns out ->
        cell_at out 0 0
        = Some match vs with
               | [] => "1.5"
               | _ => toFixed_digits (mean vs) (Nat.max (smoothing_decimals "1.5") 2)
               end)
  /\ ((forall ni, (ni < length small_table)%nat ->
                  row_length small_table ni = row_length small_table 0%nat) ->
      vs = window_values_claimed small_table 0 0 (odd_window 2 / 2) 0 0).
Proof.
  destruct small_table_cell as (Hin & Hraw & Hv & _).
  exact (C5_moving_average_window small_table 2 false false 0 0 "1.5" (Finite (3 # 2))
           Hin Hraw Hv).
Defined.




(** Two rows in a heap. *)
Definition two_rows : heap := <[1%nat := ["3"; ""]]> (<[0%nat := ["1"; "2"]]> ∅).

Lemma two_rows_allocated : forall l, l ∈ [0%nat; 1%nat] -> is_Some (two_rows !! l).
Proof.
  intros l Hl. rewrite !elem_of_cons, elem_of_nil in Hl.
  destruct Hl as [->|[->|[]]]; vm_compute; eauto.
Qed.

Lemma C8_witness :
  match run_mem AutoFillBlanks two_rows [0%nat; 1%nat] false false with
  | Returns (h', result) =>
      (forall l, is_Some (two_rows !! l) -> h' !! l = two_rows !! l)
      /\ deref h' [0%nat; 1%nat] = deref two_rows [0%nat; 1%nat]
      /\ (forall l, l ∈ result -> two_rows !! l = None)
      /\ NoDup result
      /\ run AutoFillBlanks (deref two_rows [0%nat; 1%nat]) false false
         = Returns (deref h' result)
      /\ (forall order,
            (forall ij, ij ∈ order
                        <-> ij ∈ cells (deref two_rows [0%nat; 1%nat])
                              (start_of false) (start_of false)) ->
            run_mem_in order AutoFillBlanks two_rows [0%nat; 1%nat] false false
            = Returns (h', result))
  | Throws e => run AutoFillBlanks (deref two_rows [0%nat; 1%nat]) false false = Throws e
  | Diverges => run AutoFillBlanks (deref two_rows [0%nat; 1%nat]) false false = Diverges
  end.
Proof.
  exact (C8_input_untouched_output_fresh AutoFillBlanks two_rows [0%nat; 1%nat] false false
           two_rows_allocated).
Defined.





(** The tables of the specification's examples. *)
Example bilinear_example :
  applyBilinearInterpolation [["1"; "2"; "3"]; ["4"; "5"; "6"]; ["7"; "8"; "9"]] false false
  = Returns [["2.33"; "2.75"; "3.67"]; ["4.25"; "5.00"; "5.75"]; ["6.33"; "7.25"; "7.67"]].
Proof. by vm_compute. Qed.

Example fill_example :
  autoFillBlanks [["10"; ""; "30"]] false false = Returns [["10"; "20.0"; "30"]].
Proof. by vm_compute. Qed.

Example flat_example :
  getCellColors (Finite 5) (Finite 5) (Finite 5) THERMAL
  = Returns (CellColors "rgb(0, 255, 0)" "#000000").
Proof. by vm_compute. Qed.

End Tables.

(** * Further properties *)

(** ** What the operations keep *)

Section FrameFacts.
Context {N : JSNumber}.

Lemma row_length_cells (a b : grid) i :
  length a = length b ->
  (forall j, is_Some (cell_at a i j) <-> is_Some (cell_at b i j)) ->
  row_length a i = row_length b i.
Proof.
  intros Hlen Hcells. unfold row_length, cell_at in *.
  destruct (a !! i) as [ra|] eqn:Ea, (b !! i) as [rb|] eqn:Eb; simpl in *.
  - destruct (decide (length ra = length rb)) as [|Hne]; [done|exfalso].
    destruct (decide (length ra < length rb)%nat).
    + destruct (Hcells (length ra)) as [_ H].
      destruct H as [x Hx]; [by apply lookup_lt_is_Some|].
      apply lookup_lt_Some in Hx. lia.
    + destruct (Hcells (length rb)) as [H _].
      destruct H as [x Hx]; [apply lookup_lt_is_Some; lia|].
      apply lookup_lt_Some in Hx. lia.
  - apply lookup_lt_Some in Ea. apply lookup_ge_None in Eb. lia.
  - apply lookup_lt_Some in Eb. apply lookup_ge_None in Ea. lia.
  - done.
Qed.

Lemma grid_loop_shape rule content sr sc out :
  grid_loop rule content sr sc = Returns out ->
  length out = length content /\ forall i, row_length out i = row_length content i.
Proof.
  intros (_ & Hlen & Hcell)%grid_loop_Returns. split; [done|].
  intros i. apply row_length_cells; [done|]. intros j. rewrite Hcell.
  case_bool_decide; [|done]. by rewrite fmap_is_Some.
Qed.

Lemma run_Returns op content r c out :
  run op content r c = Returns out ->
  exists rule, rule_of op r c = Returns rule
               /\ grid_loop rule content (start_of r) (start_of c) = Returns out.
Proof.
  rewrite run_rule_of. destruct (rule_of op r c) as [rule| |]; [|done..].
  intros H. by exists rule.
Qed.

(** X1.  Each of the four operations returns a grid of the shape of its
    input: as many rows, and every row as long as the row it copies. *)
Theorem X1_operations_keep_the_shape op content r c out :
  run op content r c = Returns out ->
  length out = length content
  /\ (forall i, row_length out i = row_length content i)
  /\ length <$> out = length <$> content.
Proof.
  intros (rule & _ & Hloop)%run_Returns.
  destruct (grid_loop_shape _ _ _ _ _ Hloop) as [Hlen Hrows].
  split; [done|]. split; [done|].
  apply list_eq. intros i. rewrite !list_lookup_fmap.
  specialize (Hrows i). unfold row_length in Hrows.
  destruct (out !! i) eqn:Eo, (content !! i) eqn:Ec; simpl; try congruence.
  - apply lookup_lt_Some in Eo. apply lookup_ge_None in Ec. lia.
  - apply lookup_lt_Some in Ec. apply lookup_ge_None in Eo. lia.
Qed.

Lemma written_smoother (rule : cell_rule) content i j :
  (parseNumericValue (cell_at content i j) = None -> rule content i j = Returns None) ->
  is_Some (written rule content i j) ->
  is_Some (parseNumericValue (cell_at content i j)).
Proof.
  intros Hrule Hw. destruct (parseNumericValue _) eqn:E; [done|].
  unfold written in Hw. rewrite Hrule in Hw by done. by destruct Hw.
Qed.

Lemma outside_mask_unchanged op content r c out i j :
  run op content r c = Returns out ->
  ~ in_mask content (start_of r) (start_of c) i j ->
  cell_at out i j = cell_at content i j.
Proof.
  intros (rule & _ & Hloop)%run_Returns Hn.
  destruct (grid_loop_Returns _ _ _ _ _ Hloop) as (_ & _ & Hcell).
  rewrite Hcell. by rewrite bool_decide_eq_false_2.
Qed.

(** A cell that an operation changes. *)
Lemma changed_cell op content r c out i j :
  run op content r c = Returns out ->
  cell_at out i j <> cell_at content i j ->
  in_mask content (start_of r) (start_of c) i j
  /\ match op with
     | AutoFillBlanks => isEmpty (cell_at content i j) = true
     | _ => is_Some (parseNumericValue (cell_at content i j))
     end.
Proof.
  intros Hrun Hdiff.
  destruct (decide (in_mask content (start_of r) (start_of c) i j)) as [Hin|Hn];
    [|by rewrite (outside_mask_unchanged _ _ _ _ _ _ _ Hrun Hn) in Hdiff].
  split; [done|].
  destruct (run_Returns _ _ _ _ _ Hrun) as (rule & Hrule & Hloop).
  destruct (grid_loop_Returns _ _ _ _ _ Hloop) as (_ & Hlen & Hcell).
  rewrite Hcell, bool_decide_eq_true_2 in Hdiff by done.
  assert (Hw : is_Some (written rule content i j)).
  { destruct (written rule content i j) eqn:E; [done|].
    exfalso. apply Hdiff. by destruct (cell_at content i j). }
  destruct op as [w|sigma| |]; simpl in Hrule.
  - injection Hrule as <-. revert Hw. apply written_smoother.
    intros E. unfold movingAverage_cell. by rewrite E.
  - destruct (gaussian_kernel sigma) as [[kernel h]| |]; [|done..].
    injection Hrule as <-. revert Hw. apply written_smoother.
    intros E. unfold gaussian_cell. by rewrite E.
  - injection Hrule as <-. revert Hw. apply written_smoother.
    intros E. unfold bilinear_cell. by rewrite E.
  - injection Hrule as <-.
    destruct (isEmpty (cell_at content i j)) eqn:E; [done|].
    unfold written in Hw. rewrite autoFill_cell_nonblank in Hw by done.
    by destruct Hw.
Qed.

(** X2.  A cell of the result that differs from the input is a cell of the
    mask, and it was numeric if the operation is one of the three
    smoothers, blank if it is the filler.  In particular a skipped first
    row or first column comes back as it was. *)
Theorem X2_only_cells_of_the_mask_change op content r c out :
  run op content r c = Returns out ->
  (forall i j,
     cell_at out i j <> cell_at content i j ->
     in_mask content (start_of r) (start_of c) i j
     /\ match op with
        | AutoFillBlanks => isEmpty (cell_at content i j) = true
        | _ => is_Some (parseNumericValue (cell_at content i j))
        end)
  /\ (r = true -> out !! 0%nat = content !! 0%nat)
  /\ (c = true -> forall i, cell_at out i 0 = cell_at content i 0).
Proof.
  intros Hrun. split; [|split].
  - intros i j. by apply changed_cell.
  - intros ->.
    destruct (run_Returns _ _ _ _ _ Hrun) as (rule & _ & Hloop).
    destruct (grid_loop_shape _ _ _ _ _ Hloop) as [Hlen Hrows].
    specialize (Hrows 0%nat). unfold row_length in Hrows.
    assert (Hc0 : forall j, cell_at out 0 j = cell_at content 0 j).
    { intros j. apply (outside_mask_unchanged _ _ _ _ _ _ _ Hrun).
      unfold in_mask. simpl. intros [H _]. inversion H. }
    unfold cell_at in Hc0.
    destruct (out !! 0%nat) as [ro|] eqn:Eo, (content !! 0%nat) as [rc|] eqn:Ec;
      simpl in *; try done.
    + f_equal. apply list_eq. intros j. apply Hc0.
    + apply lookup_lt_Some in Eo. apply lookup_ge_None in Ec. lia.
    + apply lookup_lt_Some in Ec. apply lookup_ge_None in Eo. lia.
  - intros -> i. apply (outside_mask_unchanged _ _ _ _ _ _ _ Hrun).
    unfold in_mask. simpl. lia.
Qed.

(** X3.  A cell that is blank does not parse as a number, given that
    [parseFloat] of the empty text and of [&nbsp;] is NaN, as it is in the
    language.  So the blank test of [findNearest] excludes nothing the
    numeric test admits, and the three smoothers leave every blank cell
    as it was. *)
Theorem X3_blank_cells_are_not_numeric :
  isNaN (parseFloat "") = true ->
  isNaN (parseFloat "&nbsp;") = true ->
  (forall cell, isEmpty cell = true -> parseNumericValue cell = None)
  /\ (forall content row col,
        scan_value content row col
        = parseNumericValue (cell_at content (Z.to_nat row) (Z.to_nat col)))
  /\ (forall op content r c out i j,
        op <> AutoFillBlanks ->
        run op content r c = Returns out ->
        isEmpty (cell_at content i j) = true ->
        cell_at out i j = cell_at content i j).
Proof.
  intros Hempty Hnbsp.
  assert (Hblank : forall cell, isEmpty cell = true -> parseNumericValue cell = None).
  { intros [[|a s]|]; try done. unfold isEmpty, parseNumericValue.
    set (cleaned := JSString.trim (JSString.stripTags (String a s))).
    intros [H|H]%orb_true_iff; apply String.eqb_eq in H; rewrite H;
      [by rewrite Hempty|by rewrite Hnbsp]. }
  split; [done|]. split.
  - intros content row col. unfold scan_value.
    destruct (isEmpty _) eqn:E; [|done]. simpl. symmetry. by apply Hblank.
  - intros op content r c out i j Hop Hrun Hb.
    destruct (decide (cell_at out i j = cell_at content i j)) as [|Hdiff]; [done|].
    destruct (changed_cell _ _ _ _ _ _ _ Hrun Hdiff) as [_ Hnum].
    rewrite (Hblank _ Hb) in Hnum. destruct op; try done; by destruct Hnum.
Qed.

End FrameFacts.

Module GradientFacts.
Local Abbreviation Finite := Ideal.Finite.
Import Palette Gradient.

Local Abbreviation real := Ideal.real.
Local Abbreviation NaN := Ideal.NaN.
Local Abbreviation Infinity := Ideal.Infinity.
Local Abbreviation finite := Ideal.finite.





Lemma in_COLOR_SCHEMES (P : @colorScheme Ideal.number -> Prop) :
  P THERMAL -> P GRAYSCALE -> P VIRIDIS -> P AUTOMOTIVE ->
  forall scheme, scheme ∈ @COLOR_SCHEMES Ideal.number -> P scheme.
Proof.
  intros H1 H2 H3 H4 scheme. unfold COLOR_SCHEMES. rewrite !elem_of_cons, elem_of_nil.
  by intros [->|[->|[->|[->|[]]]]].
Qed.






End GradientFacts.

Module StopFacts.
Local Abbreviation Finite := Ideal.Finite.
Import Palette Gradient.
Local Abbreviation real := Ideal.real.

Lemma ascending_cons a b rest :
  ascending (a :: b :: rest)
  = Ideal.ltb (stop_value a) (stop_value b) && ascending (b :: rest).
Proof. reflexivity. Qed.

Lemma find_stops_cons (v : real) a b rest :
  find_stops v (a :: b :: rest)
  = if leb (stop_value a) v && leb v (stop_value b) then Some (a, b)
    else find_stops v (b :: rest).
Proof. reflexivity. Qed.

Lemma valid_position s :
  valid_stop s = true -> stop_value s = Finite (position s) /\ (0 <= position s <= 1)%Q.
Proof.
  intros (q & r & g & b & Hq & _ & Hr & _)%IdealFacts.valid_stop_spec.
  unfold position. by rewrite Hq.
Qed.

Lemma ascending_head a rest x :
  Forall (fun s => valid_stop s = true) (a :: rest) ->
  ascending (a :: rest) = true -> x ∈ rest -> (position a < position x)%Q.
Proof.
  revert a. induction rest as [|b rest IH]; intros a Hvalid Hasc Hx.
  - by apply elem_of_nil in Hx.
  - rewrite ascending_cons in Hasc. apply andb_true_iff in Hasc as [Hab Hasc].
    inversion Hvalid as [|? ? Ha Hvalid']; subst.
    pose proof Hvalid' as Hvb. apply Forall_cons in Hvb as [Hb _].
    destruct (valid_position a Ha) as [Ea _], (valid_position b Hb) as [Eb _].
    rewrite Ea, Eb in Hab. apply IdealFacts.ltb_Finite in Hab.
    apply elem_of_cons in Hx as [->|Hx]; [done|].
    specialize (IH b Hvalid' Hasc Hx). lra.
Qed.

(** Where the loop of [getColorForValue] stops for the position of a stop. *)
Lemma find_stops_at_stop cs s (v : Q) :
  Forall (fun s => valid_stop s = true) cs ->
  ascending cs = true -> s ∈ cs -> (v == position s)%Q ->
  match find_stops (Finite v) cs with
  | None => cs = [s]
  | Some (lo, hi) =>
      (lo = s /\ (position s < position hi)%Q /\ valid_stop hi = true)
      \/ (hi = s /\ (position lo < position s)%Q /\ valid_stop lo = true)
  end.
Proof.
  induction cs as [|a rest IH]; intros Hvalid Hasc Hs Hv; [by apply elem_of_nil in Hs|].
  destruct rest as [|b rest].
  - apply list_elem_of_singleton in Hs as ->. done.
  - rewrite find_stops_cons.
    inversion Hvalid as [|? ? Ha Hvalid']; subst.
    pose proof Hvalid' as Hvb. apply Forall_cons in Hvb as [Hb _].
    destruct (valid_position a Ha) as [Ea _], (valid_position b Hb) as [Eb _].
    pose proof (ascending_head a (b :: rest) b Hvalid Hasc ltac:(apply list_elem_of_here)) as Hab.
    rewrite Ea, Eb.
    destruct (@leb Ideal.number (Finite (position a)) (Finite v)
                && @leb Ideal.number (Finite v) (Finite (position b)))
      eqn:E.
    + apply andb_true_iff in E as [E1%IdealFacts.leb_Finite E2%IdealFacts.leb_Finite].
      apply elem_of_cons in Hs as [->|Hs]; [left; done|].
      right. apply elem_of_cons in Hs as [->|Hs]; [done|].
      rewrite ascending_cons in Hasc. apply andb_true_iff in Hasc as [_ Hasc].
      pose proof (ascending_head b rest s Hvalid' Hasc Hs). lra.
    + apply elem_of_cons in Hs as [->|Hs].
      { exfalso. apply not_true_iff_false in E. apply E, andb_true_iff.
        split; apply IdealFacts.leb_Finite; lra. }
      rewrite ascending_cons in Hasc. apply andb_true_iff in Hasc as [_ Hasc].
      specialize (IH Hvalid' Hasc Hs Hv).
      destruct (find_stops _ (b :: rest)) as [[lo hi]|]; [done|].
      injection IH as -> ->.
      exfalso. apply not_true_iff_false in E. apply E, andb_true_iff.
      split; apply IdealFacts.leb_Finite; lra.
Qed.

Lemma Qfloor_half (c : Z) (x : Q) : (x == inject_Z c + (1 # 2))%Q -> Qfloor x = c.
Proof.
  intros Hx.
  pose proof (Qfloor_le x) as Hle. pose proof (Qlt_floor x) as Hlt.
  assert (H1 : (inject_Z (Qfloor x) < inject_Z (c + 1))%Q).
  { rewrite inject_Z_plus. change (inject_Z 1) with 1%Q. lra. }
  assert (H2 : (inject_Z c < inject_Z (Qfloor x + 1))%Q) by lra.
  rewrite <-Zlt_Qlt in H1, H2. lia.
Qed.

Lemma interpolateChannel_ends (c1 c2 : Z) (f : Q) :
  ((f == 0)%Q -> interpolateChannel c1 c2 (Finite f) = Int c1)
  /\ ((f == 1)%Q -> interpolateChannel c1 c2 (Finite f) = Int c2).
Proof.
  rewrite IdealFacts.interpolateChannel_Finite.
  set (x := Qred (_ + _)%Q).
  assert (Hx : (x == inject_Z c1 + (inject_Z c2 - inject_Z c1) * f)%Q).
  { subst x. rewrite !Qred_correct. reflexivity. }
  split; intros Hf; f_equal; apply Qfloor_half; rewrite Hx, Hf; ring.
Qed.

(** The interpolation factor at the lower and at the upper stop. *)
Lemma factor_ends (ql qh v : Q) :
  (ql < qh)%Q ->
  exists f,
    (if @eqb Ideal.number (sub (Finite qh) (Finite ql)) (of_Z 0) then of_Z 0
     else div (sub (Finite v) (Finite ql)) (sub (Finite qh) (Finite ql))) = Finite f
    /\ ((v == ql)%Q -> (f == 0)%Q) /\ ((v == qh)%Q -> (f == 1)%Q).
Proof.
  intros Hlt.
  change (@sub Ideal.number (Finite qh) (Finite ql)) with (Finite (Qred (qh + Qred (- ql)))).
  change (@sub Ideal.number (Finite v) (Finite ql)) with (Finite (Qred (v + Qred (- ql)))).
  set (y := Qred (qh + Qred (- ql))). set (x := Qred (v + Qred (- ql))).
  assert (Hy : (y == qh - ql)%Q) by (subst y; rewrite !Qred_correct; reflexivity).
  assert (Hx : (x == v - ql)%Q) by (subst x; rewrite !Qred_correct; reflexivity).
  change (@of_Z Ideal.number 0) with (Finite 0).
  change (@eqb Ideal.number (Finite y) (Finite 0)) with (Qeq_bool y 0).
  destruct (Qeq_bool y 0) eqn:E.
  { apply Qeq_bool_iff in E. lra. }
  apply not_true_iff_false in E. rewrite Qeq_bool_iff in E.
  assert (Hz : Ideal.is_zero y = false).
  { unfold Ideal.is_zero. apply Z.eqb_neq. intros Hn. apply E.
    unfold Qeq. simpl. lia. }
  change (@div Ideal.number (Finite x) (Finite y)) with (Ideal.div (Finite x) (Finite y)).
  unfold Ideal.div. rewrite Hz. exists (Qred (x / y)). split; [done|].
  rewrite Qred_correct. split; intros Hv.
  - rewrite Hx, Hv. field. lra.
  - rewrite Hx, Hy, Hv. field. lra.
Qed.

Lemma getColorForValue_rgb_at_stop scheme s :
  valid_scheme scheme = true -> ascending (colors scheme) = true ->
  s ∈ colors scheme ->
  getColorForValue_rgb (stop_value s) scheme = Returns (stop_rgb s).
Proof.
  intros Hvalid Hasc Hs. unfold valid_scheme in Hvalid.
  apply andb_true_iff in Hvalid as [Hstops _].
  assert (Hall : Forall (fun s => valid_stop s = true) (colors scheme)).
  { apply Forall_forall. intros x Hx. rewrite forallb_forall in Hstops.
    by apply Hstops, list_elem_of_In. }
  destruct (valid_position s) as [Es Hs01]; [by eapply Forall_forall in Hall|].
  rewrite Es. unfold getColorForValue_rgb.
  change (@Math_max Ideal.number (of_Z 0) (@Math_min Ideal.number (of_Z 1) (Finite (position s))))
    with (Ideal.Math_max (Ideal.finite 0) (Ideal.Math_min (Ideal.finite 1) (Finite (position s)))).
  destruct (IdealFacts.clamp_Finite (position s)) as (v & -> & _ & Hv).
  specialize (Hv Hs01).
  pose proof (find_stops_at_stop (colors scheme) s v Hall Hasc Hs Hv) as Hfind.
  destruct (find_stops _ (colors scheme)) as [[lo hi]|].
  - destruct Hfind as [(-> & Hlt & Hhi)|(-> & Hlt & Hlo)].
    + destruct (valid_position hi Hhi) as [Eh _]. rewrite Es, Eh.
      destruct (factor_ends (position s) (position hi) v Hlt) as (f & -> & Hf & _).
      unfold interpolateColor, stop_rgb.
      destruct (stop_color s) as [[r1 g1] b1], (stop_color hi) as [[r2 g2] b2].
      by rewrite !(proj1 (interpolateChannel_ends _ _ f)) by auto.
    + destruct (valid_position lo Hlo) as [El _]. rewrite Es, El.
      destruct (factor_ends (position lo) (position s) v Hlt) as (f & -> & _ & Hf).
      unfold interpolateColor, stop_rgb.
      destruct (stop_color lo) as [[r1 g1] b1], (stop_color s) as [[r2 g2] b2].
      by rewrite !(proj2 (interpolateChannel_ends _ _ f)) by auto.
  - rewrite Hfind. cbn [lookup list_lookup length Nat.sub]. rewrite Es.
    change (@sub Ideal.number (Finite (position s)) (Finite (position s)))
      with (Finite (Qred (position s + Qred (- position s)))).
    assert (E : @eqb Ideal.number (Finite (Qred (position s + Qred (- position s)))) (of_Z 0)
                = true).
    { apply Qeq_bool_iff. rewrite !Qred_correct. ring. }
    rewrite E. unfold interpolateColor, stop_rgb.
    destruct (stop_color s) as [[r1 g1] b1].
    by rewrite !(proj1 (interpolateChannel_ends _ _ 0)) by reflexivity.
Qed.

Lemma built_in_ascending scheme :
  scheme ∈ @COLOR_SCHEMES Ideal.number -> ascending (colors scheme) = true.
Proof.
  unfold COLOR_SCHEMES. rewrite !elem_of_cons, elem_of_nil.
  intros [->|[->|[->|[->|[]]]]]; by vm_compute.
Qed.

(** X6.  The gradient passes through its stops: on a scheme whose stops
    have positions in [[0, 1]] that strictly increase, as those of the four
    built-in schemes do, [getColorForValue] at the position of a stop
    returns the colour of that stop. *)
Theorem X6_gradient_passes_through_stops scheme s :
  valid_scheme scheme = true -> ascending (colors scheme) = true ->
  s ∈ colors scheme ->
  getColorForValue_rgb (stop_value s) scheme = Returns (stop_rgb s)
  /\ getColorForValue (stop_value s) scheme = Returns (rgb_string (stop_rgb s)).
Proof.
  intros Hvalid Hasc Hs.
  pose proof (getColorForValue_rgb_at_stop scheme s Hvalid Hasc Hs) as H.
  split; [done|]. unfold getColorForValue. by rewrite H.
Qed.

End StopFacts.

Module SchemeFacts.
Local Abbreviation Finite := Ideal.Finite.
Import Palette Gradient.

Lemma scheme_of_key_Some key (scheme : @colorScheme Ideal.number) :
  scheme_of_key key = Some scheme ->
  scheme ∈ @COLOR_SCHEMES Ideal.number
  /\ key ∈ ["THERMAL"; "GRAYSCALE"; "VIRIDIS"; "AUTOMOTIVE"].
Proof.
  unfold scheme_of_key, COLOR_SCHEMES.
  repeat match goal with
         | |- context [String.eqb key ?s] =>
             destruct (String.eqb_spec key s) as [->|_];
             [intros [= <-]; split;
              repeat first [apply list_elem_of_here | apply list_elem_of_further]|]
         end.
  done.
Qed.

Lemma scheme_of_key_None key :
  @scheme_of_key Ideal.number key = None
  <-> key ∉ ["THERMAL"; "GRAYSCALE"; "VIRIDIS"; "AUTOMOTIVE"].
Proof.
  unfold scheme_of_key. rewrite !not_elem_of_cons.
  repeat match goal with
         | |- context [String.eqb key ?s] =>
             destruct (String.eqb_spec key s) as [->|?]; [split; [done|tauto]|]
         end.
  split; [|done]. intros _. repeat split; try done. apply not_elem_of_nil.
Qed.

(** X7.  [getSchemeColor] throws a TypeError for every name that is not a
    key of [COLOR_SCHEMES].  For each of the four keys it returns the
    colour of the stop in the middle of the scheme, [colors[floor(n / 2)]],
    which is the colour the gradient has at the position of that stop. *)
Theorem X7_scheme_colour key :
  (key ∉ ["THERMAL"; "GRAYSCALE"; "VIRIDIS"; "AUTOMOTIVE"]
   <-> @getSchemeColor Ideal.number key = Throws TypeError)
  /\ forall scheme,
       scheme_of_key key = Some scheme ->
       exists stop,
         colors scheme !! (length (colors scheme) / 2)%nat = Some stop
         /\ getSchemeColor key = Returns (rgb_string (stop_rgb stop))
         /\ getSchemeColor key = getColorForValue (stop_value stop) scheme.
Proof.
  split.
  - rewrite <-scheme_of_key_None. split.
    + intros H. unfold getSchemeColor. by rewrite H.
    + unfold getSchemeColor.
      destruct (scheme_of_key key) as [scheme|] eqn:E; [|done].
      apply scheme_of_key_Some in E as [Hin _].
      pattern scheme. revert scheme Hin.
      by apply GradientFacts.in_COLOR_SCHEMES.
  - intros scheme Hkey. pose proof Hkey as [Hin _]%scheme_of_key_Some.
    assert (Hstop : exists stop, colors scheme !! (length (colors scheme) / 2)%nat = Some stop).
    { clear Hkey. pattern scheme. revert scheme Hin.
      apply GradientFacts.in_COLOR_SCHEMES; by eexists. }
    destruct Hstop as [stop Hstop]. exists stop. split; [done|].
    assert (E : getSchemeColor key = Returns (rgb_string (stop_rgb stop))).
    { unfold getSchemeColor. rewrite Hkey. cbv zeta. rewrite Hstop.
      unfold stop_rgb. by destruct (stop_color stop) as [[r g] b]. }
    split; [done|]. rewrite E. symmetry.
    unfold getColorForValue.
    rewrite StopFacts.getColorForValue_rgb_at_stop; [done|..].
    + by apply IdealFacts.built_in_valid.
    + by apply StopFacts.built_in_ascending.
    + by eapply list_elem_of_lookup_2.
Qed.
End SchemeFacts.

Section MinMaxLoop.
Context {N : JSNumber} {I : JSInfinity N}.

Lemma bind_bind {A B C} (F : A -> list B) (G : B -> list C) (l : list A) :
  (x ← (i ← l; F i); G x) = (i ← l; x ← F i; G x).
Proof.
  induction l as [|a l IH]; [done|]. csimpl. by rewrite bind_app, IH.
Qed.

Lemma numeric_values_rows content sr sc :
  numeric_values content sr sc
  = (i ← seq sr (length content - sr);
     j ← seq sc (row_length content i - sc);
     option_list (parseNumericValue (cell_at content i j))).
Proof.
  unfold numeric_values, cells. rewrite bind_bind.
  apply bind_ext. intros i _. by rewrite bind_fmap.
Qed.

Lemma widen_rows content sc rows acc :
  foldl (fun acc i =>
    foldl (fun '(min, max, hasValues) j =>
      match parseNumericValue (cell_at content i j) with
      | Some value => (Math_min min value, Math_max max value, true)
      | None => (min, max, hasValues)
      end)
      acc (seq sc (row_length content i - sc)))
    acc rows
  = foldl widen acc
      (i ← rows; j ← seq sc (row_length content i - sc);
       option_list (parseNumericValue (cell_at content i j))).
Proof.
  rewrite foldl_bind. revert acc.
  induction rows as [|i rows IH]; intros acc; [done|].
  simpl. rewrite <-IH. f_equal. rewrite foldl_bind. clear IH.
  revert acc. induction (seq sc _) as [|j cols IH]; intros acc; [done|].
  simpl. rewrite <-IH. f_equal.
  destruct acc as [[mn mx] h].
  by destruct (parseNumericValue (cell_at content i j)).
Qed.

Lemma getMinMaxValues_values content r c :
  getMinMaxValues content r c
  = let '(min, max, hasValues) :=
      foldl widen (infinity, negate infinity, false)
        (numeric_values content (start_of r) (start_of c)) in
    if hasValues then MinMax min max true else MinMax (of_Z 0) (of_Z 1) false.
Proof.
  unfold getMinMaxValues. cbv zeta. by rewrite widen_rows, numeric_values_rows.
Qed.

Lemma foldl_widen (vs : list num) mn mx h :
  foldl widen (mn, mx, h) vs
  = (foldl Math_min mn vs, foldl Math_max mx vs, h || negb (bool_decide (vs = []))).
Proof.
  revert mn mx h. induction vs as [|v vs IH]; intros mn mx h; simpl.
  - by rewrite orb_false_r.
  - rewrite IH. f_equal. by rewrite orb_true_r.
Qed.

Lemma elem_of_numeric_values content sr sc (v : num) :
  v ∈ numeric_values content sr sc
  <-> exists i j, in_mask content sr sc i j
                  /\ parseNumericValue (cell_at content i j) = Some v.
Proof.
  unfold numeric_values. rewrite list_elem_of_bind. split.
  - intros ([i j] & Hv & Hin). apply elem_of_cells in Hin. exists i, j. split; [done|].
    simpl in Hv. destruct (parseNumericValue _); [|by apply elem_of_nil in Hv].
    by apply list_elem_of_singleton in Hv as ->.
  - intros (i & j & Hin & Hv). exists (i, j). split; [|by apply elem_of_cells].
    simpl. rewrite Hv. apply list_elem_of_here.
Qed.

End MinMaxLoop.

Section MinMaxFacts.
Context {N : JSNumber} {I : JSInfinity N}.

Lemma parseNumericValue_not_NaN cell (v : num) :
  parseNumericValue cell = Some v -> isNaN v = false.
Proof.
  unfold parseNumericValue. destruct cell as [[|a s]|]; try done.
  destruct (isNaN _) eqn:E; [done|]. by intros [= <-].
Qed.

Lemma numeric_values_nil content sr sc :
  numeric_values content sr sc = []
  <-> forall i j, in_mask content sr sc i j ->
                  parseNumericValue (cell_at content i j) = None.
Proof.
  split.
  - intros Hnil i j Hin. destruct (parseNumericValue _) as [v|] eqn:E; [|done].
    assert (Hv : v ∈ numeric_values content sr sc)
      by (apply elem_of_numeric_values; eauto).
    rewrite Hnil in Hv. by apply elem_of_nil in Hv.
  - intros Hnone. destruct (numeric_values content sr sc) as [|v vs] eqn:E; [done|].
    assert (Hv : v ∈ numeric_values content sr sc) by (rewrite E; apply list_elem_of_here).
    apply elem_of_numeric_values in Hv as (i & j & Hin & Hv).
    rewrite Hnone in Hv; done.
Qed.

(** X8.  [getMinMaxValues] reports [hasValues: false] exactly when no cell
    of the mask parses as a number, an empty table included, and its range
    is then the default [0 .. 1]; otherwise [hasValues] is [true]. *)
Theorem X8_range_of_a_table_without_numbers content r c :
  let range := getMinMaxValues content r c in
  (hasValues range = false
   <-> forall i j, in_mask content (start_of r) (start_of c) i j ->
                   parseNumericValue (cell_at content i j) = None)
  /\ (hasValues range = false -> range = MinMax (of_Z 0) (of_Z 1) false)
  /\ getMinMaxValues [] r c = MinMax (of_Z 0) (of_Z 1) false.
Proof.
  intros range. subst range. rewrite getMinMaxValues_values, foldl_widen.
  rewrite <-numeric_values_nil.
  destruct (numeric_values content (start_of r) (start_of c)) as [|v vs] eqn:E.
  - rewrite bool_decide_eq_true_2 by done. simpl. split; [done|]. split; [done|].
    by destruct r.
  - rewrite bool_decide_eq_false_2 by done. simpl. split; [done|]. split; [done|].
    by destruct r.
Qed.

End MinMaxFacts.

Module OrderFacts.
Local Abbreviation Finite := Ideal.Finite.
Local Abbreviation real := Ideal.real.
Import Interval.



Lemma leb_cases (a b : real) :
  Ideal.leb a b
  = match a, b with
    | Ideal.NaN, _ | _, Ideal.NaN => false
    | Ideal.Infinity s, Ideal.Infinity t => s || negb t
    | Ideal.Infinity s, Ideal.Finite _ => s
    | Ideal.Finite _, Ideal.Infinity t => negb t
    | Ideal.Finite x, Ideal.Finite y => Qle_bool x y
    end.
Proof.
  destruct a as [|[]|x], b as [|[]|y]; try done.
  apply eq_true_iff_eq. rewrite IdealFacts.leb_Finite. by rewrite Qle_bool_iff.
Qed.

Lemma leb_refl (a : real) : is_number a -> Ideal.leb a a = true.
Proof.
  rewrite leb_cases. destruct a as [|[]|x]; try done. intros _.
  apply Qle_bool_iff, Qle_refl.
Qed.

Lemma leb_trans (a b c : real) :
  Ideal.leb a b = true -> Ideal.leb b c = true -> Ideal.leb a c = true.
Proof.
  rewrite !leb_cases.
  destruct a as [|[]|x], b as [|[]|y], c as [|[]|z]; try done.
  rewrite !Qle_bool_iff. apply Qle_trans.
Qed.

Lemma ltb_leb (a b : real) :
  is_number a -> is_number b -> Ideal.ltb a b = false -> Ideal.leb b a = true.
Proof.
  rewrite leb_cases. destruct a as [|[]|x], b as [|[]|y]; try done. intros _ _.
  simpl. intros H%negb_false_iff. done.
Qed.

Lemma ltb_weaken (a b : real) : Ideal.ltb a b = true -> Ideal.leb a b = true.
Proof. unfold Ideal.leb. by intros ->. Qed.

Lemma Math_min_spec (a b : real) :
  is_number a -> is_number b ->
  let m := Ideal.Math_min a b in
  is_number m /\ (m = a \/ m = b) /\ Ideal.leb m a = true /\ Ideal.leb m b = true.
Proof.
  intros Ha Hb m. subst m.
  assert (E : Ideal.Math_min a b = if Ideal.ltb b a then b else a)
    by (by destruct a as [|[]|x], b as [|[]|y]).
  rewrite E. destruct (Ideal.ltb b a) eqn:Hlt.
  - split; [done|]. split; [by right|]. split; [by apply ltb_weaken|by apply leb_refl].
  - split; [done|]. split; [by left|]. split; [by apply leb_refl|by apply ltb_leb].
Qed.

Lemma Math_max_spec (a b : real) :
  is_number a -> is_number b ->
  let m := Ideal.Math_max a b in
  is_number m /\ (m = a \/ m = b) /\ Ideal.leb a m = true /\ Ideal.leb b m = true.
Proof.
  intros Ha Hb m. subst m.
  assert (E : Ideal.Math_max a b = if Ideal.ltb a b then b else a)
    by (by destruct a as [|[]|x], b as [|[]|y]).
  rewrite E. destruct (Ideal.ltb a b) eqn:Hlt.
  - split; [done|]. split; [by right|]. split; [by apply ltb_weaken|by apply leb_refl].
  - split; [done|]. split; [by left|]. split; [by apply leb_refl|by apply ltb_leb].
Qed.

Lemma foldl_min (vs : list real) (acc : real) :
  Forall is_number vs -> is_number acc ->
  let m := foldl Ideal.Math_min acc vs in
  is_number m /\ (m = acc \/ m ∈ vs) /\ Ideal.leb m acc = true
  /\ forall v, v ∈ vs -> Ideal.leb m v = true.
Proof.
  intros Hvs. revert acc. induction Hvs as [|v vs Hv Hvs IH]; intros acc Hacc; simpl.
  - split; [done|]. split; [by left|]. split; [by apply leb_refl|].
    intros v Hv. by apply elem_of_nil in Hv.
  - destruct (Math_min_spec acc v Hacc Hv) as (Hm & Hor & Hle1 & Hle2).
    destruct (IH _ Hm) as (Hn & Hor' & Hle & Hall).
    split; [done|]. split; [|split].
    + destruct Hor' as [->|Hin]; [|right; by apply list_elem_of_further].
      destruct Hor as [-> | ->]; [by left|right; apply list_elem_of_here].
    + by eapply leb_trans.
    + intros x Hx. apply elem_of_cons in Hx as [->|Hx]; [by eapply leb_trans|by apply Hall].
Qed.

Lemma foldl_max (vs : list real) (acc : real) :
  Forall is_number vs -> is_number acc ->
  let m := foldl Ideal.Math_max acc vs in
  is_number m /\ (m = acc \/ m ∈ vs) /\ Ideal.leb acc m = true
  /\ forall v, v ∈ vs -> Ideal.leb v m = true.
Proof.
  intros Hvs. revert acc. induction Hvs as [|v vs Hv Hvs IH]; intros acc Hacc; simpl.
  - split; [done|]. split; [by left|]. split; [by apply leb_refl|].
    intros v Hv. by apply elem_of_nil in Hv.
  - destruct (Math_max_spec acc v Hacc Hv) as (Hm & Hor & Hle1 & Hle2).
    destruct (IH _ Hm) as (Hn & Hor' & Hle & Hall).
    split; [done|]. split; [|split].
    + destruct Hor' as [->|Hin]; [|right; by apply list_elem_of_further].
      destruct Hor as [-> | ->]; [by left|right; apply list_elem_of_here].
    + by eapply leb_trans.
    + intros x Hx. apply elem_of_cons in Hx as [->|Hx]; [by eapply leb_trans|by apply Hall].
Qed.

Lemma above_infinity (v : real) : Ideal.leb (Ideal.Infinity false) v = true -> v = Ideal.Infinity false.
Proof. by destruct v as [|[]|x]. Qed.

Lemma below_minus_infinity (v : real) :
  Ideal.leb v (Ideal.Infinity true) = true -> v = Ideal.Infinity true.
Proof. by destruct v as [|[]|x]. Qed.

(** The range [getMinMaxValues] computes. *)
Lemma getMinMaxValues_range content r c :
  let range := @getMinMaxValues Ideal.number _ content r c in
  let sr := start_of r in
  let sc := start_of c in
  (forall i j v,
     in_mask content sr sc i j ->
     parseNumericValue (cell_at content i j) = Some v ->
     hasValues range = true
     /\ @leb Ideal.number (minValue range) v = true
     /\ @leb Ideal.number v (maxValue range) = true)
  /\ (hasValues range = true ->
      exists i j i' j',
        in_mask content sr sc i j
        /\ parseNumericValue (cell_at content i j) = Some (minValue range)
        /\ in_mask content sr sc i' j'
        /\ parseNumericValue (cell_at content i' j') = Some (maxValue range)).
Proof.
  intros range sr sc. subst range.
  rewrite getMinMaxValues_values, foldl_widen. fold sr sc.
  change (list (@num Ideal.number)) with (list real) in *.
  assert (Hnum : Forall is_number (numeric_values content sr sc)).
  { apply Forall_forall. intros v Hv.
    apply (@elem_of_numeric_values Ideal.number) in Hv as (i & j & _ & Hv).
    by eapply (@parseNumericValue_not_NaN Ideal.number). }
  destruct (foldl_min _ (Ideal.Infinity false) Hnum eq_refl) as (_ & Hmin & _ & Hlow).
  destruct (foldl_max _ (Ideal.Infinity true) Hnum eq_refl) as (_ & Hmax & _ & Hhigh).
  change (@infinity Ideal.number _) with (Ideal.Infinity false).
  change (@negate Ideal.number _ (Ideal.Infinity false)) with (Ideal.Infinity true).
  change (@Math_min Ideal.number) with Ideal.Math_min.
  change (@Math_max Ideal.number) with Ideal.Math_max.
  destruct (numeric_values content sr sc) as [|v0 vs] eqn:E.
  { rewrite bool_decide_eq_true_2 by done. simpl. split; [|done].
    intros i j v Hin Hv.
    assert (v ∈ numeric_values content sr sc) as Hel
      by (apply (@elem_of_numeric_values Ideal.number); eauto).
    rewrite E in Hel. by apply elem_of_nil in Hel. }
  rewrite bool_decide_eq_false_2 by done.
  set (mn := foldl Ideal.Math_min _ _) in *. set (mx := foldl Ideal.Math_max _ _) in *.
  cbn [orb negb hasValues minValue maxValue].
  split.
  - intros i j v Hin Hv.
    assert (v ∈ v0 :: vs) as Hel by (rewrite <-E; apply (@elem_of_numeric_values Ideal.number); eauto).
    split; [done|]. split; [by apply Hlow|by apply Hhigh].
  - intros _.
    assert (Hmn : mn ∈ v0 :: vs).
    { destruct Hmin as [Hmn|]; [|done].
      rewrite Hmn. rewrite Hmn in Hlow.
      rewrite <-(above_infinity v0); [apply list_elem_of_here|].
      apply Hlow, list_elem_of_here. }
    assert (Hmx : mx ∈ v0 :: vs).
    { destruct Hmax as [Hmx|]; [|done].
      rewrite Hmx. rewrite Hmx in Hhigh.
      rewrite <-(below_minus_infinity v0); [apply list_elem_of_here|].
      apply Hhigh, list_elem_of_here. }
    rewrite <-E in Hmn, Hmx.
    apply (@elem_of_numeric_values Ideal.number) in Hmn as (i & j & Hin & Hv).
    apply (@elem_of_numeric_values Ideal.number) in Hmx as (i' & j' & Hin' & Hv').
    by exists i, j, i', j'.
Qed.


(** X9.  When some cell of the mask parses as a number, the [min] and
    [max] of [getMinMaxValues] are the numbers of two cells of the mask,
    and the number of every cell of the mask lies between them. *)
Theorem X9_range_of_a_table content r c :
  let range := @getMinMaxValues Ideal.number _ content r c in
  let sr := start_of r in
  let sc := start_of c in
  (forall i j v,
     in_mask content sr sc i j ->
     parseNumericValue (cell_at content i j) = Some v ->
     hasValues range = true
     /\ @leb Ideal.number (minValue range) v = true
     /\ @leb Ideal.number v (maxValue range) = true)
  /\ (hasValues range = true ->
      exists i j i' j',
        in_mask content sr sc i j
        /\ parseNumericValue (cell_at content i j) = Some (minValue range)
        /\ in_mask content sr sc i' j'
        /\ parseNumericValue (cell_at content i' j') = Some (maxValue range)).
Proof. apply getMinMaxValues_range. Qed.

End OrderFacts.

Module EndFacts.
Local Abbreviation Finite := Ideal.Finite.
Import Palette Gradient GradientFacts.







End EndFacts.

Module TableColours.
Local Abbreviation Finite := Ideal.Finite.
Import Palette Gradient Interval GradientFacts OrderFacts EndFacts.


End TableColours.

Section WindowFacts.
Context {N : JSNumber}.






End WindowFacts.

Module MeanFacts.
Local Abbreviation Finite := Ideal.Finite.
Import Interval.
Local Abbreviation real := Ideal.real.







End MeanFacts.

Section FillCell.
Context {N : JSNumber}.





End FillCell.

Module FillFactsExact.
Local Abbreviation Finite := Ideal.Finite.
Import Interval.
Local Abbreviation real := Ideal.real.





End FillFactsExact.

Module DegenerateFacts.
Local Abbreviation Finite := Ideal.Finite.
Local Abbreviation real := Ideal.real.





Lemma gaussian_kernel_zero :
  @gaussian_kernel Ideal.number (Finite 0) = Returns ([[Ideal.NaN]], 0).
Proof. reflexivity. Qed.

Lemma gaussian_cell_NaN sr sc content i j :
  @gaussian_cell Ideal.number [[Ideal.NaN]] 0 sr sc content i j = Returns None.
Proof.
  unfold gaussian_cell. destruct (parseNumericValue (cell_at content i j)); [|done].
  unfold kernel_sums. cbn [length seq foldl lookup list_lookup default id].
  destruct (in_window_bounds _ _ _ _ _ _); [|done].
  destruct (parseNumericValue (cell_at content _ _)) as [[| |x]|]; try done;
    by destruct negative.
Qed.

(** X15.  With [sigma = 0] the kernel of the Gaussian is the single entry
    [exp(0 / 0) = NaN]; every weight sum is NaN or 0, no cell passes the
    test [weightSum > 0], and the table comes back as it was. *)
Theorem X15_sigma_zero_changes_nothing content r c :
  @applyGaussianSmoothing Ideal.number content (Finite 0) r c = Returns content.
Proof.
  unfold applyGaussianSmoothing. rewrite gaussian_kernel_zero.
  change (Returns ?x ≫= ?f) with (f x). cbv beta iota.
  apply grid_loop_id. intros i j _. apply gaussian_cell_NaN.
Qed.

End DegenerateFacts.

Section PluginFacts.
Context {N : JSNumber}.

Ltac headings_cases d :=
  destruct d as [wh ? ? ? ? ? ? ? ? ? ?];
  unfold rowHeadings_onActivate, columnHeadings_onActivate, noHeadings_onActivate,
    headings_changed, set_withHeadings, rowHeadings_isActive, columnHeadings_isActive,
    noHeadings_isActive;
  cbn [fst snd withHeadings gradientColors];
  destruct wh as [| |[]|n|s|g]; try (cbn; done);
  cbn [is_text];
  destruct (String.eqb_spec s "row") as [->|Hrow]; [cbn; done|];
  destruct (String.eqb_spec s "column") as [->|Hcolumn]; [cbn; done|];
  destruct (String.eqb_spec s "both") as [->|Hboth]; [cbn; done|];
  cbn; try done.

(** X16.  The two toggles of the headings menu act on two independent
    bits, whatever [withHeadings] held before: "1st Row" flips whether the
    first row is a heading and keeps the first column, "1st Column" flips
    the column and keeps the row.  They commute, and after either of them
    "None" is the active item exactly when neither bit is set. *)
Theorem X16_heading_toggles (d : tableData) :
  let row := (rowHeadings_onActivate d).1 in
  let col := (columnHeadings_onActivate d).1 in
  (rowHeadings_isActive row = negb (rowHeadings_isActive d)
   /\ columnHeadings_isActive row = columnHeadings_isActive d)
  /\ (columnHeadings_isActive col = negb (columnHeadings_isActive d)
      /\ rowHeadings_isActive col = rowHeadings_isActive d)
  /\ (columnHeadings_onActivate row).1 = (rowHeadings_onActivate col).1
  /\ noHeadings_isActive row
     = negb (rowHeadings_isActive row || columnHeadings_isActive row)
  /\ noHeadings_isActive col
     = negb (rowHeadings_isActive col || columnHeadings_isActive col)
  /\ (rowHeadings_isActive (noHeadings_onActivate d).1 = false
      /\ columnHeadings_isActive (noHeadings_onActivate d).1 = false).
Proof.
  intros row col. subst row col.
  repeat split; headings_cases d.
Qed.

Lemma elem_of_all_cells (g : grid) i j t :
  (i, j, t) ∈ all_cells g <-> cell_at g i j = Some t.
Proof.
  unfold all_cells. rewrite list_elem_of_bind. split.
  - intros (i' & H & _). apply list_elem_of_bind in H as (j' & H & _).
    destruct (cell_at g i' j') as [t'|] eqn:E; [|by apply elem_of_nil in H].
    apply list_elem_of_singleton in H. by injection H as -> -> ->.
  - intros H. exists i. unfold cell_at in H.
    destruct (g !! i) as [row|] eqn:Ei; [|done]. simpl in H.
    split; [|apply elem_of_seq; apply lookup_lt_Some in Ei; lia].
    apply list_elem_of_bind. exists j.
    split; [|apply elem_of_seq; unfold row_length; rewrite Ei;
             apply lookup_lt_Some in H; lia].
    unfold cell_at. rewrite Ei. simpl. rewrite H. apply list_elem_of_here.
Qed.

Lemma reapply_gradient_calls (d : tableData) call :
  call ∈ reapply_gradient d -> call = ApplyGradientColors /\ truthy (gradientColors d) = true.
Proof.
  unfold reapply_gradient. destruct (truthy _); [|by intros ?%elem_of_nil].
  by intros ->%list_elem_of_singleton.
Qed.

(** X17.  [applyAutoFill] writes to the table only what the filler
    changed: every [setCellContent(row, col, text)] it issues addresses,
    with indices from 1, a cell of the mask that was blank, and [text] is
    what the filler put there.  It issues none for a table without a blank
    cell of the mask, and it re-applies the gradient exactly when
    [gradientColors] is set. *)
Theorem X17_auto_fill_writes_blank_cells_only (d : tableData) content calls :
  applyAutoFill d content = Returns calls ->
  let r := skipFirstRow_of d in
  let c := skipFirstCol_of d in
  (forall row col text,
     SetCellContent row col text ∈ calls ->
     exists i j,
       row = (i + 1)%nat /\ col = (j + 1)%nat
       /\ in_mask content (start_of r) (start_of c) i j
       /\ isEmpty (cell_at content i j) = true
       /\ forall filled, autoFillBlanks content r c = Returns filled ->
                         cell_at filled i j = Some text)
  /\ (ApplyGradientColors ∈ calls <-> truthy (gradientColors d) = true)
  /\ ((forall i j, in_mask content (start_of r) (start_of c) i j ->
                   isEmpty (cell_at content i j) = false) ->
      calls = reapply_gradient d).
Proof.
  intros Hcalls r c. unfold applyAutoFill in Hcalls. fold r c in Hcalls.
  destruct (autoFillBlanks content r c) as [filled| |] eqn:Hfill; [|done..].
  injection Hcalls as <-.
  assert (Hset : forall row col text,
            SetCellContent row col text
            ∈ (ijt ← all_cells filled;
               let '(i, j, text) := ijt in
               if decide (Some text <> cell_at content i j)
               then [SetCellContent (i + 1) (j + 1) text] else []) ->
            exists i j, row = (i + 1)%nat /\ col = (j + 1)%nat
                        /\ cell_at filled i j = Some text
                        /\ cell_at filled i j <> cell_at content i j).
  { intros row col text ([[i j] t] & H & Hcell)%list_elem_of_bind.
    apply elem_of_all_cells in Hcell.
    destruct (decide _) as [Hne|]; [|by apply elem_of_nil in H].
    apply list_elem_of_singleton in H. injection H as -> -> ->.
    exists i, j. by rewrite Hcell. }
  split; [|split].
  - intros row col text [H|H]%elem_of_app.
    + destruct (Hset _ _ _ H) as (i & j & -> & -> & Hcell & Hdiff).
      exists i, j. split; [done|]. split; [done|].
      destruct (changed_cell AutoFillBlanks content r c filled i j Hfill Hdiff) as [Hin Hb].
      split; [done|]. split; [done|]. by intros ? [= <-].
    + by apply reapply_gradient_calls in H as [? _].
  - rewrite elem_of_app. split.
    + intros [([[i j] t] & H & _)%list_elem_of_bind|H].
      * destruct (decide _); [|by apply elem_of_nil in H].
        by apply list_elem_of_singleton in H.
      * by apply reapply_gradient_calls in H as [_ ?].
    + intros Ht. right. unfold reapply_gradient. rewrite Ht. apply list_elem_of_here.
  - intros Hfull.
    replace filled with content.
    + rewrite bind_nil; [done|]. intros [[i j] t] Hcell%elem_of_all_cells.
      by rewrite decide_False by (rewrite Hcell; tauto).
    + symmetry in Hfill. pose proof Hfill as Hfill'.
      rewrite (autoFillBlanks_fixed content r c) in Hfill'; [by injection Hfill'|].
      intros i j Hin Hb. by rewrite Hfull in Hb.
Qed.

Lemma write_back_unchanged (d : tableData) content row col t :
  SetCellContent row col t
  ∈ ((ijt ← all_cells content;
      let '(i, j, text) := ijt in [SetCellContent (i + 1) (j + 1) text])
     ++ reapply_gradient d)%list ->
  exists i j, row = (i + 1)%nat /\ col = (j + 1)%nat /\ cell_at content i j = Some t.
Proof.
  intros [([[i j] t'] & H & Hcell)%list_elem_of_bind|H]%elem_of_app.
  - apply elem_of_all_cells in Hcell. apply list_elem_of_singleton in H.
    injection H as -> -> ->. by exists i, j.
  - by apply reapply_gradient_calls in H as [? _].
Qed.

(** X18.  Whatever is typed into the prompt of the moving average, the
    window size the plugin passes on is an integer other than 0: it is 3
    when the answer does not start with an integer or the integer is 0.  A
    negative answer is passed on as it is, and then every cell is written
    back to the table with the text it had.  A cancelled prompt, and a
    method name that is none of the three, make no call on the table. *)
Theorem X18_window_size_from_the_prompt (d : tableData) content (answer : string) :
  let w := windowSize_argument answer in
  w <> 0
  /\ (JSGlobal.parseInt answer = None \/ JSGlobal.parseInt answer = Some 0 -> w = 3)
  /\ (w < 0 ->
      exists calls,
        applySmoothingMethod d content "movingAverage" (Some answer) = Returns calls
        /\ forall row col t,
             SetCellContent row col t ∈ calls ->
             exists i j, row = (i + 1)%nat /\ col = (j + 1)%nat
                         /\ cell_at content i j = Some t)
  /\ applySmoothingMethod d content "movingAverage" None = Returns []
  /\ applySmoothingMethod d content "gaussian" None = Returns []
  /\ (forall method other,
        method ∉ ["movingAverage"; "gaussian"; "bilinear"] ->
        applySmoothingMethod d content method other = Returns []).
Proof.
  intros w. subst w. split; [|split; [|split; [|split; [|split]]]]; try done.
  - unfold windowSize_argument. destruct (JSGlobal.parseInt answer) as [w|]; [|done].
    destruct (Z.eqb_spec w 0); done.
  - unfold windowSize_argument. by intros [-> | ->].
  - intros Hneg. unfold applySmoothingMethod. cbn [String.eqb Ascii.eqb Bool.eqb].
    rewrite applyMovingAverage_negative by done.
    eexists. split; [reflexivity|]. apply write_back_unchanged.
  - intros method other Hm. rewrite !not_elem_of_cons in Hm.
    destruct Hm as (H1 & H2 & H3 & _). unfold applySmoothingMethod.
    by rewrite (proj2 (String.eqb_neq _ _) H1), (proj2 (String.eqb_neq _ _) H2),
      (proj2 (String.eqb_neq _ _) H3).
Qed.

(** X19.  [getConfig] returns the saved value only if it is truthy, and
    the default otherwise, so a saved [false], [0] or empty text cannot be
    told from a missing field.  When the constructor is given saved data,
    the tool's configuration is not consulted for any field, even one the
    saved data lacks; without saved data and configuration every field has
    its default. *)
Theorem X19_saved_data_overrides_the_configuration :
  (forall this_data this_config name defaultValue savedData,
     let v := getConfig this_data this_config name defaultValue savedData in
     v = defaultValue \/ truthy v = true)
  /\ (forall data config,
        TableBlock_constructor (Some data) config = TableBlock_constructor (Some data) None)
  /\ (forall config name defaultValue,
        getConfig None (Some config) name defaultValue None
        = if truthy (get config name) then get config name else defaultValue)
  /\ TableBlock_constructor None None
     = TableData (VBoolean false) (VBoolean false) (VBoolean false) (VText "THERMAL")
         (VBoolean false) (VText "") (VBoolean false) (VText "") (VText "")
         (VBoolean false) (VRows []).
Proof.
  split; [|split; [|split]]; try done.
  intros [d|] [cfg|] name def [s|]; cbn; unfold getConfig;
    repeat match goal with
           | |- context [truthy ?x] => destruct (truthy x) eqn:?; auto
           end.
Qed.

End PluginFacts.

(** ** Concrete cases *)

Module Cases.
Local Abbreviation Finite := Ideal.Finite.
Import Palette Gradient Interval.
Import GradientFacts StopFacts EndFacts MeanFacts FillFactsExact DegenerateFacts TableColours.

(** A table with a heading row and a blank cell, and a ragged one. *)
Definition headed_table : grid := [["x"; "rpm"]; ["1"; "2.5"]; ["3"; ""]].
Definition uneven_table : grid := [["1"]; ["2"; "9"]].


Lemma X1_witness :
  length [["1.50"]; ["4.00"; "4.00"]] = length uneven_table
  /\ (forall i, row_length [["1.50"]; ["4.00"; "4.00"]] i = row_length uneven_table i)
  /\ length <$> [["1.50"]; ["4.00"; "4.00"]] = length <$> uneven_table.
Proof.
  apply (X1_operations_keep_the_shape (MovingAverage 3) uneven_table false false).
  vm_compute. reflexivity.
Defined.

Lemma X2_witness :
  (forall i j,
     cell_at [["x"; "rpm"]; ["2.17"; "1.75"]; ["2.00"; ""]] i j <> cell_at headed_table i j ->
     in_mask headed_table (start_of true) (start_of false) i j
     /\ is_Some (parseNumericValue (cell_at headed_table i j)))
  /\ (true = true ->
      [["x"; "rpm"]; ["2.17"; "1.75"]; ["2.00"; ""]] !! 0%nat = headed_table !! 0%nat)
  /\ (false = true ->
      forall i, cell_at [["x"; "rpm"]; ["2.17"; "1.75"]; ["2.00"; ""]] i 0
                = cell_at headed_table i 0).
Proof.
  apply (X2_only_cells_of_the_mask_change BilinearInterpolation headed_table true false).
  vm_compute. reflexivity.
Defined.

Lemma X3_witness :
  (forall cell, isEmpty cell = true -> @parseNumericValue Ideal.number cell = None)
  /\ (forall content row col,
        @scan_value Ideal.number content row col
        = parseNumericValue (cell_at content (Z.to_nat row) (Z.to_nat col)))
  /\ (forall (op : @operation Ideal.number) content r c out i j,
        op <> AutoFillBlanks ->
        run op content r c = Returns out ->
        isEmpty (cell_at content i j) = true ->
        cell_at out i j = cell_at content i j).
Proof.
  apply (@X3_blank_cells_are_not_numeric Ideal.number); reflexivity.
Defined.



Lemma X6_witness :
  getColorForValue_rgb (literal 6 10) AUTOMOTIVE = Returns (Int 255, Int 200, Int 60)
  /\ getColorForValue (literal 6 10) AUTOMOTIVE = Returns "rgb(255, 200, 60)".
Proof.
  apply (X6_gradient_passes_through_stops AUTOMOTIVE (ColorStop (literal 6 10) (255, 200, 60))).
  - reflexivity.
  - reflexivity.
  - unfold AUTOMOTIVE. cbn [colors].
    repeat first [apply list_elem_of_here | apply list_elem_of_further].
Defined.






Definition gap_table : grid := [["x"; "rpm"]; ["1"; ""]; ["3"; "4"]].




(** Saved data with a heading row that gradients skip. *)
Definition skipping_data : @tableData Ideal.number :=
  TableData (VText "row") (VBoolean false) (VBoolean true) (VText "THERMAL")
    (VBoolean false) (VText "") (VBoolean false) (VText "") (VText "")
    (VBoolean true) (VRows gap_table).

Lemma X17_witness :
  let r := skipFirstRow_of skipping_data in
  let c := skipFirstCol_of skipping_data in
  (forall row col text,
     SetCellContent row col text ∈ [SetCellContent 2 2 "2.5"; ApplyGradientColors] ->
     exists i j,
       row = (i + 1)%nat /\ col = (j + 1)%nat
       /\ in_mask gap_table (start_of r) (start_of c) i j
       /\ isEmpty (cell_at gap_table i j) = true
       /\ forall filled, autoFillBlanks gap_table r c = Returns filled ->
                         cell_at filled i j = Some text)
  /\ (ApplyGradientColors ∈ [@SetCellContent Ideal.number 2 2 "2.5"; ApplyGradientColors]
      <-> truthy (gradientColors skipping_data) = true)
  /\ ((forall i j, in_mask gap_table (start_of r) (start_of c) i j ->
                   isEmpty (cell_at gap_table i j) = false) ->
      [SetCellContent 2 2 "2.5"; ApplyGradientColors] = reapply_gradient skipping_data).
Proof.
  apply (X17_auto_fill_writes_blank_cells_only skipping_data gap_table).
  reflexivity.
Defined.

End Cases.
